(** * wordle-solver: the feedback model, the constraint aggregator, the guess
    selection and the trainer of [src/index.js], and the properties the
    specification states about them.

    Strings are [string]; a word's characters are a [list ascii], as
    [text.split('')] yields them.  JavaScript arrays are lists; reading past
    the end of an array gives [undefined], which is [None] of list lookup.
    Exceptions are the [Throw] results of [outcome]; [console.log] appends to
    an explicit console. *)

From Stdlib Require Import QArith Ascii String.
From stdpp Require Import base list strings gmap.
From Stdlib Require Import Permutation.

Local Open Scope string_scope.
Local Open Scope list_scope.

(** ** Results, exceptions and the console *)

Inductive exn : Type :=
  | Error (message : string)   (* throw new Error(message) *)
  | TypeError.                 (* reading a property of undefined *)

Inductive outcome (A : Type) : Type :=
  | Return (a : A)
  | Throw (e : exn).

Arguments Return {A} a.
Arguments Throw {A} e.

Inductive log_entry : Type :=
  | LogGrade (word : string) (passGray passGreen passYellow : bool)
  | LogUsingTypeGrade (usedKey : option string).

Definition console : Type := list log_entry.

#[global] Instance exn_eq_dec : EqDecision exn.
Proof. solve_decision. Defined.

(** ** Array helpers *)

(** [arr.includes(x)]. *)
Definition includes {A} `{EqDecision A} (x : A) (arr : list A) : bool :=
  bool_decide (x ∈ arr).

(** [Array.from(new Set(arr))]: the distinct elements, each at its first
    occurrence. *)
Fixpoint Set_from {A} `{EqDecision A} (arr : list A) : list A :=
  match arr with
  | [] => []
  | x :: rest => x :: filter (λ y, y ≠ x) (Set_from rest)
  end.

(** [arr.forEach((x, i) => ...)] threading the state the callback writes
    to, the next index being [i]. *)
Fixpoint forEach_from {A St} (f : St → nat → A → St) (i : nat) (arr : list A) (s : St) : St :=
  match arr with
  | [] => s
  | x :: rest => forEach_from f (S i) rest (f s i x)
  end.

(** [arr[i] = x] on an array that may hold [null]: past the end the array
    is extended, the skipped slots being holes.  A hole and [null] are both
    [None]: [includes], [every] and [filter] treat them alike for a
    character, and the one test that tells them apart, [positionIsGreen] of
    [evaluateWord], does not change what is returned. *)
Definition array_set {A} (i : nat) (x : A) (arr : list (option A)) : list (option A) :=
  if bool_decide (i < length arr)
  then <[i := Some x]> arr
  else arr ++ replicate (i - length arr) None ++ [Some x].

(** [arr.findIndex(p)]; [None] is the -1 of no match. *)
Fixpoint findIndex {A} (p : A → bool) (arr : list A) : option nat :=
  match arr with
  | [] => None
  | x :: rest => if p x then Some 0 else S <$> findIndex p rest
  end.

(** [Math.min(...values)]; [None] is the [Infinity] of no argument. *)
Definition Math_min (values : list nat) : option nat :=
  match values with
  | [] => None
  | v :: rest => Some (fold_left Nat.min rest v)
  end.

(** ** Word *)

Record Word : Type := {
  characters : list ascii;
  vowels : list ascii;
  consonants : list ascii;
  repeatedCharaters : gmap ascii nat
}.

Definition is_vowel (c : ascii) : bool :=
  includes c (list_ascii_of_string "aeiou").

Definition new_Word (text : string) : Word :=
  let chars := list_ascii_of_string text in
  {| characters := chars;
     vowels := filter (λ c, is_vowel c = true) chars;
     consonants := filter (λ c, is_vowel c = false) chars;
     repeatedCharaters :=
       fold_left (λ acc (e : ascii * nat), <[e.1 := e.2]> acc)
         (filter (λ e : ascii * nat, 1 < e.2)
            (map (λ eachChar, (eachChar, length (filter (λ c, c = eachChar) chars))) chars))
         ∅ |}.

(** The constructor as an operation that could throw: its body has no
    [throw] and reads no property of a possibly undefined value. *)
Definition Word_construct (text : string) : outcome Word :=
  Return (new_Word text).

Definition hasChar (w : Word) (char : ascii) : bool :=
  includes char (characters w).

Definition Word_toString (w : Word) : string :=
  string_of_list_ascii (characters w).

(** The word length the solver is written for: [greenChars] starts from
    five empty slots. *)
Definition L : nat := 5.

(** ** WordFilter *)

Inductive COLORS : Type := GRAY | YELLOW | GREEN.

#[global] Instance COLORS_eq_dec : EqDecision COLORS.
Proof. solve_decision. Defined.

Record position : Type := { character : ascii; value : COLORS }.

#[global] Instance position_eq_dec : EqDecision position.
Proof. solve_decision. Defined.

Record WordFilter : Type := { positions : list position }.

Definition isWin (wf : WordFilter) : bool :=
  forallb (λ p, bool_decide (value p = GREEN)) (positions wf).

(** ** Game *)

Record Game : Type := {
  wordFilters : list WordFilter;
  secretWord : Word;
  allWords : list Word;
  availableWords : list Word
}.

Definition new_Game (secret : string) (words : list string) : Game :=
  {| wordFilters := [];
     secretWord := new_Word secret;
     allWords := map new_Word words;
     availableWords := map new_Word words |}.

(** [this.wordFilters.push(wf)]. *)
Definition push_filter (g : Game) (wf : WordFilter) : Game :=
  {| wordFilters := wordFilters g ++ [wf];
     secretWord := secretWord g;
     allWords := allWords g;
     availableWords := availableWords g |}.

(** The callback of the [map] in [newTry]. *)
Definition classify (secret : Word) (i : nat) (c : ascii) : position :=
  if bool_decide (characters secret !! i = Some c)
  then {| character := c; value := GREEN |}
  else if includes c (characters secret)
  then {| character := c; value := YELLOW |}
  else {| character := c; value := GRAY |}.

Definition firstPass (secret word : Word) : list position :=
  imap (classify secret) (characters word).

Definition greenCharsOf (ps : list position) : list ascii :=
  map character (filter (λ p, value p = GREEN) ps).

(** The callback of the [forEach] in [newTry], which writes to
    [wf.positions].  [wf.positions[i]] is always there, the positions being
    as many as the characters of the word. *)
Definition downgrade (ps : list position) (i : nat) (c : ascii) : list position :=
  match ps !! i with
  | Some p =>
      if bool_decide (value p = YELLOW)
      then if includes c (greenCharsOf ps)
           then <[i := {| character := c; value := GRAY |}]> ps
           else ps
      else ps
  | None => ps
  end.

Definition postPass (word : Word) (ps : list position) : list position :=
  forEach_from downgrade 0 (characters word) ps.

Definition newTry (g : Game) (word : Word) : WordFilter :=
  {| positions := postPass word (firstPass (secretWord g) word) |}.

Definition usedWords (g : Game) : list string :=
  map (λ wf, string_of_list_ascii (map character (positions wf))) (wordFilters g).

(** The callback of the inner [forEach] of [greenChars]. *)
Definition mark_green (acc : list (option ascii)) (i : nat) (p : position) : list (option ascii) :=
  if bool_decide (value p = GREEN) then array_set i (character p) acc else acc.

Definition greenChars (g : Game) : list (option ascii) :=
  fold_left (λ acc wf, forEach_from mark_green 0 (positions wf) acc)
    (wordFilters g) (replicate 5 None).

Definition allWordFilters (g : Game) : list position :=
  concat (map positions (wordFilters g)).

Definition yellowChars (g : Game) : list ascii :=
  filter (λ c, includes (Some c) (greenChars g) = false)
    (Set_from (map character (filter (λ p, value p = YELLOW) (allWordFilters g)))).

Definition grayChars (g : Game) : list ascii :=
  filter (λ c, includes (Some c) (greenChars g) = false)
    (Set_from (map character (filter (λ p, value p = GRAY) (allWordFilters g)))).

Record evaluation : Type := { gray : bool; green : bool; yellow : bool }.

(** [arr.every((c, i) => ...)]. *)
Definition every_i {A} (f : A → nat → bool) (arr : list A) : bool :=
  forallb id (imap (λ i c, f c i) arr).

Definition evaluateWord (g : Game) (word : Word) : evaluation * console :=
  let passGray := negb (existsb (λ c, hasChar word c) (grayChars g)) in
  let passGreen :=
    every_i (λ c i,
      match c with
      | None => true
      | Some c' => bool_decide (characters word !! i = Some c')
      end) (greenChars g) in
  let passYellow :=
    every_i (λ c i,
      if negb (hasChar word c) then false
      else
        let positionIsGreen :=
          match greenChars g !! i with Some None => false | _ => true end in
        if negb positionIsGreen then true
        else true (* the statements after this return are never run *))
      (yellowChars g) in
  let print := bool_decide (Word_toString word = Word_toString (secretWord g)) in
  ({| gray := passGray; green := passGreen; yellow := passYellow |},
   if print then [LogGrade (Word_toString word) passGray passGreen passYellow] else []).

(** The words not guessed yet: the local [availableWords] of [guessWord]. *)
Definition remainingWords (g : Game) : list Word :=
  filter (λ w, includes (Word_toString w) (usedWords g) = false) (allWords g).

(** The object [typeGradedWords], its keys in insertion order. *)
Definition typeGradedWords (gradedWords : list (evaluation * Word)) : list (string * list Word) :=
  let bucket (p : evaluation → bool) := map snd (filter (λ e, p e.1 = true) gradedWords) in
  [ ("g", bucket (λ grade, gray grade));
    ("v", bucket (λ grade, green grade));
    ("y", bucket (λ grade, yellow grade));
    ("gv", bucket (λ grade, gray grade && green grade));
    ("gy", bucket (λ grade, gray grade && yellow grade));
    ("yv", bucket (λ grade, green grade && yellow grade));
    ("gvy", bucket (λ grade, gray grade && green grade && yellow grade)) ].

(** [obj[key]] on an object kept as its entries; [None] is [undefined]. *)
Fixpoint Object_get {A} (obj : list (string * A)) (key : string) : option A :=
  match obj with
  | [] => None
  | (k, v) :: rest => if bool_decide (k = key) then Some v else Object_get rest key
  end.

Definition usedKey (tgw : list (string * list Word)) : option string :=
  let values := map (λ e, length e.2) tgw in
  let max := Math_min values in
  findIndex (λ e, bool_decide (Some e = max)) values ≫= λ i, map fst tgw !! i.

(** What the engine and [words.js] supply to [gradeWords]: the numbers
    (IEEE doubles, [NaN] being what arithmetic on [undefined] gives), the
    table [CHARS_GRADING] of [getCharsGrading()], and [Array.prototype.sort],
    of which only what holds for every comparator is kept: the sorted array
    holds the same elements. *)
Class Host : Type := {
  number : Type;
  NaN : number;
  number_of_nat : nat → number;
  num_add : number → number → number;
  num_sub : number → number → number;
  num_mul : number → number → number;
  num_div : number → number → number;
  CHARS_GRADING : ascii → number;
  Array_sort : ∀ A : Type, (A → A → number) → list A → list A;
  Array_sort_Permutation : ∀ (A : Type) (cmp : A → A → number) (arr : list A),
    Array_sort A cmp arr ≡ₚ arr
}.

Record graded `{Host} : Type := { word : Word; grade : list number }.

Section Guessing.
Context `{Host}.

(** [params[i]]; a missing weight is [undefined] and multiplies to [NaN]. *)
Definition param (params : list number) (i : nat) : number :=
  default NaN (params !! i).

(** [grade.reduce((a, e) => a + e)] on the grades, which always have three
    elements; the case of no element is never reached. *)
Definition sum_grade (gr : list number) : number :=
  match gr with
  | [] => NaN
  | a :: rest => fold_left num_add rest a
  end.

Definition gradeWords (g : Game) (params : list number) (words : list Word) : list graded :=
  let existingCharacters :=
    Set_from (filter (λ c : option ascii, c ≠ None) (greenChars g ++ map Some (yellowChars g))) in
  let five := number_of_nat 5 in
  Array_sort _
    (λ a b, num_sub (sum_grade (grade b)) (sum_grade (grade a)))
    (map (λ w,
       let existingCharactersGrade :=
         num_div
           (number_of_nat
              (length (filter (λ c, includes (Some c) existingCharacters = false) (characters w))))
           five in
       let repeatedCharactersGrade :=
         num_div (number_of_nat (length (Set_from (characters w)))) five in
       let valuableCharactersGrade :=
         fold_left (λ acc c, num_add acc (num_div (CHARS_GRADING c) five))
           (characters w) (number_of_nat 0) in
       {| word := w;
          grade := [ num_mul existingCharactersGrade (param params 0);
                     num_mul repeatedCharactersGrade (param params 1);
                     num_mul valuableCharactersGrade (param params 2) ] |})
       words).

Definition guessWord (g : Game) : outcome Word * console :=
  let availableWords := remainingWords g in
  match availableWords with
  | [] => (Throw (Error "No words remaining"), [])
  | [w] => (Return w, [])
  | _ =>
      let evaluated := map (λ w, (evaluateWord g w, w)) availableWords in
      let printed := concat (map (λ e : evaluation * console * Word, e.1.2) evaluated) in
      let gradedWords := map (λ e : evaluation * console * Word, (e.1.1, e.2)) evaluated in
      let tgw := typeGradedWords gradedWords in
      let key := usedKey tgw in
      let out := printed ++ [LogUsingTypeGrade key] in
      match key ≫= Object_get tgw with
      | None => (Throw TypeError, out)
      | Some bucket =>
          let one := number_of_nat 1 in
          match gradeWords g [one; one; one] bucket with
          | [] => (Throw TypeError, out)
          | best :: _ => (Return (word best), out)
          end
      end
  end.
End Guessing.

(** ** The trainer

    The random draws being fixed, the [i]-th call of [loop] draws the
    parameters [newParams i] and its games end with the average [avg i], a
    finite double (a sum of quotients of positive integers), here its
    rational value; [<] on finite doubles is [<] on their values. *)

Record best : Type := { bestAvg : Q; bestAvgParams : list Q }.

Section Trainer.
Variable newParams : nat → list Q.
Variable avg : nat → Q.

Definition loop (i : nat) (b : best) : best :=
  if Qlt_le_dec (avg i) (bestAvg b)
  then {| bestAvg := avg i; bestAvgParams := newParams i |}
  else b.

(** The state after the first [generations] turns of the [for] loop. *)
Fixpoint train (generations : nat) : best :=
  match generations with
  | O => {| bestAvg := 100; bestAvgParams := [] |}
  | S i => loop i (train i)
  end.
End Trainer.

(** ** The feedback as the specification words it

    Step 1 classifies an index YELLOW when the secret holds the character at
    some other index; step 2 turns a YELLOW index GRAY when the same
    character is GREEN at some other index. *)

Definition spec_color (secret : list ascii) (i : nat) (c : ascii) : COLORS :=
  if bool_decide (secret !! i = Some c) then GREEN
  else if existsb (λ j, bool_decide (j ≠ i) && bool_decide (secret !! j = Some c))
            (seq 0 (length secret))
  then YELLOW
  else GRAY.

Definition spec_classified (secret guess : list ascii) : list position :=
  imap (λ i c, {| character := c; value := spec_color secret i c |}) guess.

Definition spec_downgraded (ps : list position) : list position :=
  imap (λ i p,
     if bool_decide (value p = YELLOW)
        && existsb (λ j, bool_decide (j ≠ i)
                         && bool_decide (ps !! j = Some {| character := character p; value := GREEN |}))
             (seq 0 (length ps))
     then {| character := character p; value := GRAY |}
     else p) ps.

Definition spec_feedback (secret guess : list ascii) : list position :=
  spec_downgraded (spec_classified secret guess).

(** What the post-pass of [newTry] makes of one position, the characters
    that are GREEN in the record being [greens]. *)
Definition settle (greens : list ascii) (p : position) : position :=
  if bool_decide (value p = YELLOW) && includes (character p) greens
  then {| character := character p; value := GRAY |}
  else p.

(** The character an array of green characters holds at an index, if any. *)
Definition resolved (arr : list (option ascii)) (i : nat) : option ascii :=
  mjoin (arr !! i).

(** The character a record shows GREEN at an index, if any. *)
Definition green_at (ps : list position) (i : nat) : option ascii :=
  match ps !! i with
  | Some p => if bool_decide (value p = GREEN) then Some (character p) else None
  | None => None
  end.

(** The records of a history written over an array of green characters,
    as [greenChars] does from its five empty slots. *)
Definition marks (wfs : list WordFilter) (arr : list (option ascii)) : list (option ascii) :=
  fold_left (λ acc wf, forEach_from mark_green 0 (positions wf) acc) wfs arr.

(** The graded words that [guessWord] sorts into buckets. *)
Definition gradedWordsOf (g : Game) : list (evaluation * Word) :=
  map (λ w, ((evaluateWord g w).1, w)) (remainingWords g).

(** ** The filters of one record

    [doesWordPassYellow] reads [this.positions[charIndex]], which is
    [undefined] past the end of the record: reading its [value] throws.  What
    [Math.random() < 0.001] gives is the argument [print]. *)

Inductive yellow_entry : Type :=
  | LogMissing (word : string) (char : ascii)
  | LogFound (word : string) (char : ascii) (positionAlreadyGreen : bool).

(** [arr.every(f)] for a callback that may throw and print: it stops at the
    first [false] and at the first exception. *)
Fixpoint every_logged {A E} (f : A → outcome bool * list E) (arr : list A) : outcome bool * list E :=
  match arr with
  | [] => (Return true, [])
  | x :: rest =>
      match f x with
      | (Return true, out) => let r := every_logged f rest in (r.1, out ++ r.2)
      | r => r
      end
  end.


Definition doesWordPassYellow (print : bool) (wf : WordFilter) (word : Word)
  : outcome bool * list yellow_entry :=
  every_logged (λ p,
    if bool_decide (value p = YELLOW) then
      match findIndex (λ c, bool_decide (c = character p)) (characters word) with
      | None =>
          (Return false, if print then [LogMissing (Word_toString word) (character p)] else [])
      | Some charIndex =>
          match positions wf !! charIndex with
          | None => (Throw TypeError, [])
          | Some q =>
              let positionAlreadyGreen := bool_decide (value q = GREEN) in
              (Return (negb positionAlreadyGreen),
               if print
               then [LogFound (Word_toString word) (character p) positionAlreadyGreen]
               else [])
          end
      end
    else (Return true, [])) (positions wf).



(** ** Playing a game

    [play] calls itself until a try wins; [fuel] bounds the number of calls
    and [None] is the game still running when it is spent.  [verbose] is
    passed on as the source does; [params] is never read.  The rendering of
    a record by [toString] is the entry [LogRecord]. *)

Inductive play_entry : Type :=
  | FromGuessWord (e : log_entry)
  | LogRecord (wf : WordFilter)
  | LogWin (tries : nat)
  | LogLose.

Section Playing.
Context `{Host}.

Fixpoint play (fuel : nat) (verbose : bool) (g : Game) : option (outcome Game * list play_entry) :=
  match fuel with
  | O => None
  | S fuel' =>
      match guessWord g with
      | (Throw e, out) => Some (Throw e, map FromGuessWord out)
      | (Return wordToTest, out) =>
          let result := newTry g wordToTest in
          let g' := push_filter g result in
          if isWin result
          then Some (Return g',
                     map FromGuessWord out
                     ++ (if verbose then [LogRecord result; LogWin (length (wordFilters g'))]
                         else []))
          else
            let shown :=
              (if verbose then [LogRecord result] else [])
              ++ (if bool_decide (length (wordFilters g') = 6)
                  then (if verbose then [LogLose] else [])
                  else []) in
            match play fuel' verbose g' with
            | None => None
            | Some (r, later) => Some (r, map FromGuessWord out ++ shown ++ later)
            end
      end
  end.
End Playing.

(** A history all of whose records are feedback of [newTry] against the
    secret of the game, as [play] builds it. *)
Definition played (g : Game) : Prop :=
  ∀ wf, wf ∈ wordFilters g → ∃ word, wf = newTry g word.

(** ** Shuffling

    The [i]-th turn of the loop of [shuffle] draws the indices [draw i],
    each [Math.floor(Math.random() * arr.length)], hence below the length;
    [swap] is never reached with another index and leaves the array alone
    there. *)

Definition swap {A} (arr : list A) (x y : nat) : list A :=
  match arr !! x, arr !! y with
  | Some ax, Some ay => <[y := ax]> (<[x := ay]> arr)
  | _, _ => arr
  end.

Fixpoint shuffle_loop {A} (draw : nat → nat * nat) (i turns : nat) (arr : list A) : list A :=
  match turns with
  | O => arr
  | S turns' =>
      let '(x, y) := draw i in
      shuffle_loop draw (S i) turns'
        (if bool_decide (x = y) then arr else swap arr x y)
  end.

Definition shuffle {A} (draw : nat → nat * nat) (arr : list A) : list A :=
  shuffle_loop draw 0 (length arr) arr.

(** ** A host to run the selection on

    Rational numbers for the doubles, a table that weighs every letter
    alike, and a stable insertion sort. *)

Module RationalHost.
Fixpoint insert_by {A} (cmp : A → A → Q) (x : A) (arr : list A) : list A :=
  match arr with
  | [] => [x]
  | y :: rest => if Qle_bool (cmp x y) 0 then x :: arr else y :: insert_by cmp x rest
  end.

Definition sort {A} (cmp : A → A → Q) (arr : list A) : list A :=
  foldr (insert_by cmp) [] arr.

Lemma insert_by_Permutation {A} (cmp : A → A → Q) x (arr : list A) :
  insert_by cmp x arr ≡ₚ x :: arr.
Proof.
  induction arr as [|y rest IH]; simpl; [done|].
  destruct (Qle_bool _ _); [done|].
  rewrite IH. apply Permutation_swap.
Defined.

Lemma sort_Permutation {A} (cmp : A → A → Q) (arr : list A) : sort cmp arr ≡ₚ arr.
Proof.
  induction arr as [|x rest IH]; simpl; [done|].
  rewrite insert_by_Permutation. by rewrite IH.
Defined.

#[export] Instance host : Host := {|
  number := Q;
  NaN := 0%Q;
  number_of_nat := λ n, inject_Z (Z.of_nat n);
  num_add := Qplus;
  num_sub := Qminus;
  num_mul := Qmult;
  num_div := Qdiv;
  CHARS_GRADING := λ _, 1%Q;
  Array_sort := @sort;
  Array_sort_Permutation := @sort_Permutation
|}.
End RationalHost.

(** ** The feedback of one guess *)

Section Feedback.
Implicit Types (g : Game) (word secret : Word) (ps : list position) (p : position).

Lemma includes_true {A} `{EqDecision A} (x : A) (arr : list A) :
  includes x arr = true ↔ x ∈ arr.
Proof. apply bool_decide_eq_true. Qed.

Lemma includes_false {A} `{EqDecision A} (x : A) (arr : list A) :
  includes x arr = false ↔ x ∉ arr.
Proof. apply bool_decide_eq_false. Qed.

Lemma settle_character greens p : character (settle greens p) = character p.
Proof. unfold settle. by destruct (_ && _). Qed.

Lemma settle_green greens p : value (settle greens p) = GREEN ↔ value p = GREEN.
Proof.
  unfold settle. destruct (bool_decide (value p = YELLOW)) eqn:Hy; simpl; [|done].
  apply bool_decide_eq_true in Hy.
  destruct (includes _ _); simpl; [|done]. rewrite Hy. split; discriminate.
Qed.

Lemma settle_value greens p :
  value (settle greens p) = value p
  ∨ (value p = YELLOW ∧ character p ∈ greens ∧ value (settle greens p) = GRAY).
Proof.
  unfold settle. destruct (bool_decide (value p = YELLOW)) eqn:Hy; simpl; [|by left].
  destruct (includes _ _) eqn:Hin; simpl; [|by left].
  right. apply bool_decide_eq_true in Hy. by apply includes_true in Hin.
Qed.

Lemma greenCharsOf_app ps1 ps2 :
  greenCharsOf (ps1 ++ ps2) = greenCharsOf ps1 ++ greenCharsOf ps2.
Proof. unfold greenCharsOf. by rewrite filter_app, map_app. Qed.

Lemma greenCharsOf_not_green p : value p ≠ GREEN → greenCharsOf [p] = [].
Proof. intros Hp. unfold greenCharsOf. by rewrite filter_cons_False. Qed.

Lemma greenCharsOf_settle greens ps :
  greenCharsOf (map (settle greens) ps) = greenCharsOf ps.
Proof.
  induction ps as [|p ps IH]; [done|].
  change (map (settle greens) (p :: ps)) with ([settle greens p] ++ map (settle greens) ps).
  change (p :: ps) with ([p] ++ ps).
  rewrite !greenCharsOf_app, IH. f_equal.
  unfold greenCharsOf. rewrite !filter_cons, !filter_nil.
  pose proof (settle_green greens p) as Hg.
  pose proof (settle_character greens p) as Hc.
  repeat case_decide; simpl; try congruence; tauto.
Qed.

Lemma elem_of_greenCharsOf c ps :
  c ∈ greenCharsOf ps ↔ ∃ i, ps !! i = Some {| character := c; value := GREEN |}.
Proof.
  unfold greenCharsOf. rewrite list_elem_of_In, in_map_iff. split.
  - intros (p & <- & Hp). apply list_elem_of_In, list_elem_of_filter in Hp as [Hv Hp].
    apply list_elem_of_lookup in Hp as [i Hi]. exists i. rewrite Hi.
    destruct p; simpl in *. by subst.
  - intros [i Hi]. eexists. split; [|apply list_elem_of_In, list_elem_of_filter; split;
      [|by eapply list_elem_of_lookup_2]]; done.
Qed.

(** The loop of the post-pass, index by index: the positions behind the
    index are settled, those ahead are as the first pass left them, and
    the GREEN characters never change. *)
Lemma forEach_downgrade chars : ∀ settled ahead,
  map character ahead = chars →
  forEach_from downgrade (length settled) chars (settled ++ ahead)
  = settled ++ map (settle (greenCharsOf (settled ++ ahead))) ahead.
Proof.
  induction chars as [|c chars IH]; intros settled ahead Hchars.
  - by destruct ahead.
  - destruct ahead as [|p ahead]; [done|]. simpl in Hchars.
    injection Hchars as Hc Hchars. simpl forEach_from.
    set (greens := greenCharsOf (settled ++ p :: ahead)).
    assert (downgrade (settled ++ p :: ahead) (length settled) c
            = (settled ++ [settle greens p]) ++ ahead) as ->.
    { unfold downgrade. rewrite list_lookup_middle by done.
      unfold settle. rewrite Hc. fold greens.
      destruct (bool_decide (value p = YELLOW)); simpl.
      - destruct (includes c greens); simpl.
        + replace (length settled) with (length settled + 0) by lia.
          rewrite insert_app_r. simpl. by rewrite <- app_assoc.
        + by rewrite <- app_assoc.
      - by rewrite <- app_assoc. }
    replace (S (length settled)) with (length (settled ++ [settle greens p]))
      by (rewrite length_app; simpl; lia).
    rewrite IH by done.
    assert (greenCharsOf ((settled ++ [settle greens p]) ++ ahead) = greens) as ->.
    { rewrite !greenCharsOf_app.
      change [settle greens p] with (map (settle greens) [p]).
      rewrite greenCharsOf_settle. unfold greens.
      change (p :: ahead) with ([p] ++ ahead).
      by rewrite !greenCharsOf_app, <- app_assoc. }
    by rewrite <- app_assoc.
Qed.

Lemma firstPass_characters secret word :
  map character (firstPass secret word) = characters word.
Proof.
  unfold firstPass. apply list_eq. intros i.
  change (map character ?l) with (character <$> l).
  rewrite list_lookup_fmap, list_lookup_imap.
  destruct (characters word !! i) as [c|]; simpl; [|done].
  unfold classify. by repeat destruct (_ : bool).
Qed.

Lemma newTry_positions g word :
  positions (newTry g word)
  = map (settle (greenCharsOf (firstPass (secretWord g) word)))
      (firstPass (secretWord g) word).
Proof.
  unfold newTry, postPass. simpl.
  apply (forEach_downgrade (characters word) [] (firstPass (secretWord g) word)).
  apply firstPass_characters.
Qed.

Lemma firstPass_lookup secret word i :
  firstPass secret word !! i = classify secret i <$> characters word !! i.
Proof. apply list_lookup_imap. Qed.

Lemma classify_green secret i c :
  value (classify secret i c) = GREEN ↔ characters secret !! i = Some c.
Proof.
  unfold classify. case_bool_decide; simpl; [done|].
  destruct (includes _ _); simpl; split; (discriminate || done).
Qed.

Lemma classify_character secret i c : character (classify secret i c) = c.
Proof. unfold classify. by repeat destruct (_ : bool). Qed.

Lemma newTry_lookup g word i :
  positions (newTry g word) !! i
  = (λ c, settle (greenCharsOf (firstPass (secretWord g) word)) (classify (secretWord g) i c))
      <$> characters word !! i.
Proof.
  rewrite newTry_positions.
  change (map ?f ?l) with (f <$> l).
  rewrite list_lookup_fmap, firstPass_lookup. by destruct (_ !! i).
Qed.
End Feedback.

(** C1: for a secret and a guess of the same length, the record that
    [newTry] produces has [isWin] true if and only if the guess equals the
    secret character for character. *)
Theorem newTry_isWin_iff_equal (g : Game) (word : Word) (n : nat) :
  length (characters (secretWord g)) = n →
  length (characters word) = n →
  isWin (newTry g word) = true ↔ characters word = characters (secretWord g).
Proof.
  intros Hsecret Hword. unfold isWin. rewrite forallb_forall. split.
  - intros Hall. apply list_eq. intros i.
    destruct (characters word !! i) as [c|] eqn:Hi.
    + symmetry. apply classify_green.
      apply (settle_green (greenCharsOf (firstPass (secretWord g) word))).
      eapply bool_decide_eq_true_1, Hall, list_elem_of_In.
      apply list_elem_of_lookup_2 with i. by rewrite newTry_lookup, Hi.
    + symmetry. apply lookup_ge_None. apply lookup_ge_None in Hi. lia.
  - intros Heq p Hp. apply bool_decide_eq_true.
    apply list_elem_of_In, list_elem_of_lookup in Hp as [i Hi].
    rewrite newTry_lookup in Hi.
    destruct (characters word !! i) as [c|] eqn:Hc; simpl in Hi; [|done].
    injection Hi as <-. apply settle_green, classify_green. by rewrite <- Heq.
Qed.

Lemma newTry_isWin_iff_equal_witness :
  isWin (newTry (new_Game "apple" ["apple"; "angle"]) (new_Word "apple")) = true
  ↔ characters (new_Word "apple")
    = characters (secretWord (new_Game "apple" ["apple"; "angle"])).
Proof. apply (newTry_isWin_iff_equal _ _ 5); reflexivity. Defined.

(** C10: the record of [newTry] has as many positions as the guess has
    characters, the character at every position is the character of the
    guess at that index, and the post-pass leaves a GREEN or GRAY position
    as it is and turns a YELLOW one into nothing but YELLOW or GRAY. *)
Theorem newTry_keeps_characters (g : Game) (word : Word) (n : nat) :
  length (characters word) = n →
  length (positions (newTry g word)) = n
  ∧ (∀ i, character <$> positions (newTry g word) !! i = characters word !! i)
  ∧ positions (newTry g word) = postPass word (firstPass (secretWord g) word)
  ∧ (∀ i p, firstPass (secretWord g) word !! i = Some p →
       ∃ q, postPass word (firstPass (secretWord g) word) !! i = Some q
            ∧ character q = character p
            ∧ (value p = GREEN → value q = GREEN)
            ∧ (value p = GRAY → value q = GRAY)
            ∧ (value p = YELLOW → value q = YELLOW ∨ value q = GRAY)).
Proof.
  intros Hword. split_and!.
  - by rewrite newTry_positions, length_map, <- (length_map character), firstPass_characters.
  - intros i. rewrite newTry_lookup.
    destruct (characters word !! i) as [c|]; simpl; [|done].
    by rewrite settle_character, classify_character.
  - done.
  - intros i p Hp. change (postPass word _) with (positions (newTry g word)).
    rewrite newTry_positions. change (map ?f ?l) with (f <$> l).
    rewrite list_lookup_fmap, Hp. simpl. eexists. split; [done|].
    split; [apply settle_character|].
    destruct (settle_value (greenCharsOf (firstPass (secretWord g) word)) p)
      as [Heq|(Hy & _ & Hg)].
    + rewrite Heq. tauto.
    + rewrite Hy, Hg. split_and!; (discriminate || tauto).
Qed.

Lemma newTry_keeps_characters_witness :
  let g := new_Game "aabcd" [] in
  let word := new_Word "baaxa" in
  length (positions (newTry g word)) = 5
  ∧ (∀ i, character <$> positions (newTry g word) !! i = characters word !! i)
  ∧ positions (newTry g word) = postPass word (firstPass (secretWord g) word)
  ∧ (∀ i p, firstPass (secretWord g) word !! i = Some p →
       ∃ q, postPass word (firstPass (secretWord g) word) !! i = Some q
            ∧ character q = character p
            ∧ (value p = GREEN → value q = GREEN)
            ∧ (value p = GRAY → value q = GRAY)
            ∧ (value p = YELLOW → value q = YELLOW ∨ value q = GRAY)).
Proof. intros g word. apply (newTry_keeps_characters g word 5). reflexivity. Defined.

Section Feedback_spec.
Implicit Types (secret guess : list ascii) (ps : list position).

Lemma spec_color_classify (s : Word) i c :
  spec_color (characters s) i c = value (classify s i c).
Proof.
  unfold spec_color, classify. case_bool_decide as Hi; [done|].
  rewrite (eq_true_iff_eq (existsb _ _) (includes c (characters s))).
  { by destruct (includes _ _). }
  rewrite existsb_exists, includes_true. split.
  - intros (j & _ & Hj). apply andb_true_iff in Hj as [_ Hj].
    apply bool_decide_eq_true in Hj. by eapply list_elem_of_lookup_2.
  - intros [j Hj]%list_elem_of_lookup. exists j. split.
    + apply in_seq. apply lookup_lt_Some in Hj. lia.
    + apply andb_true_iff. split; apply bool_decide_eq_true; congruence.
Qed.

Lemma spec_classified_firstPass (s w : Word) :
  spec_classified (characters s) (characters w) = firstPass s w.
Proof.
  unfold spec_classified, firstPass. apply imap_ext. intros i c _.
  rewrite spec_color_classify. pose proof (classify_character s i c) as Hc.
  destruct (classify s i c); simpl in *. by subst.
Qed.

Lemma spec_downgraded_settle ps :
  spec_downgraded ps = map (settle (greenCharsOf ps)) ps.
Proof.
  unfold spec_downgraded. apply list_eq. intros i.
  change (map ?f ?l) with (f <$> l).
  rewrite list_lookup_imap, list_lookup_fmap.
  destruct (ps !! i) as [p|] eqn:Hp; simpl; [|done]. f_equal.
  unfold settle. destruct (bool_decide (value p = YELLOW)) eqn:Hy; simpl; [|done].
  apply bool_decide_eq_true in Hy.
  rewrite (eq_true_iff_eq (existsb _ _) (includes (character p) (greenCharsOf ps))); [done|].
  rewrite existsb_exists, includes_true, elem_of_greenCharsOf. split.
  - intros (j & _ & Hj). apply andb_true_iff in Hj as [_ Hj].
    apply bool_decide_eq_true in Hj. eauto.
  - intros [j Hj]. exists j. split.
    + apply in_seq. apply lookup_lt_Some in Hj. lia.
    + apply andb_true_iff. split; apply bool_decide_eq_true; [|done].
      intros ->. rewrite Hp in Hj. injection Hj as Hj.
      apply (f_equal value) in Hj. simpl in Hj. congruence.
Qed.
End Feedback_spec.

(** C2: the record of [newTry] is the one the two steps of the
    specification give: every index GREEN where guess and secret agree,
    YELLOW where the secret holds the character at another index, GRAY
    otherwise, and then every YELLOW index whose character is GREEN at
    another index turned GRAY.  For the secret aabcd and the guess aaxyz
    the indices 0 and 1 are GREEN and the indices 2, 3 and 4 GRAY. *)
Theorem newTry_refines_spec_feedback :
  (∀ (g : Game) (word : Word),
     positions (newTry g word)
     = spec_feedback (characters (secretWord g)) (characters word))
  ∧ map value (positions (newTry (new_Game "aabcd" []) (new_Word "aaxyz")))
    = [GREEN; GREEN; GRAY; GRAY; GRAY].
Proof.
  split; [|reflexivity].
  intros g word. unfold spec_feedback.
  by rewrite spec_classified_firstPass, spec_downgraded_settle, newTry_positions.
Qed.

(** ** The candidate filter *)

Section Filter.
Implicit Types (g : Game) (word : Word).

Lemma every_i_true {A} (f : A → nat → bool) (arr : list A) :
  every_i f arr = true ↔ ∀ i x, arr !! i = Some x → f x i = true.
Proof.
  unfold every_i. rewrite forallb_forall. split.
  - intros Hall i x Hi. apply (Hall (f x i)), list_elem_of_In.
    apply list_elem_of_lookup_2 with i. by rewrite list_lookup_imap, Hi.
  - intros Hall b [i Hi]%list_elem_of_In%list_elem_of_lookup.
    rewrite list_lookup_imap in Hi.
    destruct (arr !! i) as [x|] eqn:Hx; simpl in Hi; [|done].
    injection Hi as <-. by apply (Hall i x).
Qed.
End Filter.

(** C5: [evaluateWord] passes a word on gray exactly when the word holds no
    character of [grayChars], on green exactly when at every index that
    [greenChars] resolves the word has that character, and on yellow
    exactly when the word holds every character of [yellowChars]. *)
Theorem evaluateWord_passes (g : Game) (word : Word) :
  (gray (evaluateWord g word).1 = true
   ↔ ∀ c, c ∈ grayChars g → c ∉ characters word)
  ∧ (green (evaluateWord g word).1 = true
     ↔ ∀ i c, greenChars g !! i = Some (Some c) → characters word !! i = Some c)
  ∧ (yellow (evaluateWord g word).1 = true
     ↔ ∀ c, c ∈ yellowChars g → c ∈ characters word).
Proof.
  unfold evaluateWord. simpl. split_and!.
  - rewrite negb_true_iff, <- not_true_iff_false, existsb_exists. split.
    + intros Hnone c Hc Hin. apply Hnone. exists c. split.
      * by apply list_elem_of_In.
      * by apply includes_true.
    + intros Hall (c & Hc & Hin). apply (Hall c).
      * by apply list_elem_of_In.
      * by apply includes_true.
  - rewrite every_i_true. split.
    + intros Hall i c Hi. specialize (Hall i (Some c) Hi). simpl in Hall.
      by apply bool_decide_eq_true in Hall.
    + intros Hall i [c|] Hi; [|done]. apply bool_decide_eq_true. by apply Hall.
  - rewrite every_i_true. split.
    + intros Hall c [i Hi]%list_elem_of_lookup. specialize (Hall i c Hi).
      apply includes_true. unfold hasChar in Hall.
      by destruct (includes c (characters word)).
    + intros Hall i c Hi. unfold hasChar.
      rewrite (proj2 (includes_true c (characters word))); simpl.
      * by destruct (negb _).
      * apply Hall. by eapply list_elem_of_lookup_2.
Qed.

(** ** The constraints gathered from the history *)

Section Aggregator.
Implicit Types (g : Game) (arr : list (option ascii)) (ps : list position).

Lemma elem_of_Set_from {A} `{EqDecision A} (x : A) (l : list A) :
  x ∈ Set_from l ↔ x ∈ l.
Proof.
  induction l as [|y l IH]; simpl; [done|].
  rewrite !elem_of_cons, list_elem_of_filter, IH.
  destruct (decide (x = y)); tauto.
Qed.

Lemma resolved_Some arr j c : resolved arr j = Some c ↔ arr !! j = Some (Some c).
Proof. unfold resolved. destruct (arr !! j) as [[?|]|]; simpl; naive_solver. Qed.

Lemma elem_of_resolved arr c : Some c ∈ arr ↔ ∃ j, resolved arr j = Some c.
Proof. rewrite list_elem_of_lookup. by setoid_rewrite resolved_Some. Qed.

Lemma resolved_array_set arr i j x :
  resolved (array_set i x arr) j = if decide (j = i) then Some x else resolved arr j.
Proof.
  unfold resolved, array_set. case_bool_decide as Hlt.
  - destruct (decide (j = i)) as [->|Hne].
    + by rewrite list_lookup_insert_eq.
    + by rewrite list_lookup_insert_ne.
  - destruct (decide (j < length arr)) as [Hj|Hj].
    + rewrite lookup_app_l by done. destruct (decide (j = i)); [lia|done].
    + rewrite lookup_app_r by lia.
      rewrite (lookup_ge_None_2 arr j) by lia. simpl.
      destruct (decide (j - length arr < i - length arr)) as [Hhole|Hhole].
      * rewrite lookup_app_l by (rewrite length_replicate; lia).
        rewrite lookup_replicate_2 by done. destruct (decide (j = i)); [lia|done].
      * rewrite lookup_app_r by (rewrite length_replicate; lia).
        rewrite length_replicate.
        destruct (decide (j = i)) as [->|Hne].
        -- by rewrite Nat.sub_diag.
        -- destruct (j - length arr - (i - length arr)) as [|k] eqn:Hk; [lia|done].
Qed.

Lemma green_at_Some ps j c :
  green_at ps j = Some c ↔ ps !! j = Some {| character := c; value := GREEN |}.
Proof.
  unfold green_at. destruct (ps !! j) as [[c' v]|]; simpl; [|naive_solver].
  case_bool_decide; simpl in *; naive_solver.
Qed.

(** One record written over the array: an index the record shows GREEN
    takes the record's character, every other index keeps what it had. *)
Lemma resolved_forEach_mark ps : ∀ k arr j,
  resolved (forEach_from mark_green k ps arr) j
  = match (if decide (k ≤ j)%nat then green_at ps (j - k) else None) with
    | Some c => Some c
    | None => resolved arr j
    end.
Proof.
  induction ps as [|p ps IH]; intros k arr j; simpl.
  - unfold green_at. rewrite lookup_nil. by destruct (decide _).
  - rewrite IH. unfold mark_green.
    destruct (decide (S k ≤ j)%nat) as [Hlt|Hge].
    + rewrite decide_True by lia.
      replace (j - k) with (S (j - S k)) by lia.
      change (green_at (p :: ps) (S (j - S k))) with (green_at ps (j - S k)).
      destruct (green_at ps (j - S k)); [done|].
      case_bool_decide; [|done].
      rewrite resolved_array_set. by rewrite decide_False by lia.
    + destruct (decide (k ≤ j)%nat) as [Hle|Hlt].
      * assert (j = k) as -> by lia. rewrite Nat.sub_diag.
        unfold green_at. simpl. case_bool_decide; [|done].
        rewrite resolved_array_set. by rewrite decide_True.
      * case_bool_decide; [|done].
        rewrite resolved_array_set. by rewrite decide_False by lia.
Qed.

Lemma marks_sound wfs : ∀ arr j c,
  resolved (marks wfs arr) j = Some c →
  (∃ wf, wf ∈ wfs ∧ green_at (positions wf) j = Some c) ∨ resolved arr j = Some c.
Proof.
  induction wfs as [|wf wfs IH]; intros arr j c Hres; simpl in *; [by right|].
  apply IH in Hres as [(wf' & Hin & Hg)|Hres].
  - left. exists wf'. split; [by apply list_elem_of_further|done].
  - rewrite resolved_forEach_mark in Hres. rewrite decide_True in Hres by lia.
    rewrite Nat.sub_0_r in Hres.
    destruct (green_at (positions wf) j) as [c'|] eqn:Hg; [|by right].
    left. exists wf. split; [by apply list_elem_of_here|congruence].
Qed.

Lemma marks_complete wfs : ∀ arr j,
  (∃ wf, wf ∈ wfs ∧ is_Some (green_at (positions wf) j)) ∨ is_Some (resolved arr j) →
  is_Some (resolved (marks wfs arr) j).
Proof.
  induction wfs as [|wf wfs IH]; intros arr j Hsome; simpl.
  - destruct Hsome as [(wf & Hin & _)|Hsome]; [|done]. by apply elem_of_nil in Hin.
  - apply IH.
    assert (is_Some (green_at (positions wf) j) ∨ is_Some (resolved arr j)
            → is_Some (resolved (forEach_from mark_green 0 (positions wf) arr) j)) as Hstep.
    { rewrite resolved_forEach_mark, decide_True by lia. rewrite Nat.sub_0_r.
      destruct (green_at (positions wf) j); [by eauto|].
      intros [[? [=]]|Harr]; done. }
    destruct Hsome as [(wf' & Hin & Hg)|Harr].
    + apply elem_of_cons in Hin as [->|Hin]; [right; apply Hstep; by left|].
      left. by exists wf'.
    + right. apply Hstep. by right.
Qed.

Lemma resolved_initial j : resolved (replicate 5 None) j = None.
Proof. by do 5 (destruct j as [|j]; [done|]). Qed.

Lemma greenChars_sound g j c :
  resolved (greenChars g) j = Some c →
  ∃ wf, wf ∈ wordFilters g ∧ positions wf !! j = Some {| character := c; value := GREEN |}.
Proof.
  intros [(wf & Hin & Hg)|Hinit]%marks_sound.
  - exists wf. split; [done|]. by apply green_at_Some.
  - by rewrite resolved_initial in Hinit.
Qed.

Lemma greenChars_complete g wf j c :
  wf ∈ wordFilters g →
  positions wf !! j = Some {| character := c; value := GREEN |} →
  is_Some (resolved (greenChars g) j).
Proof.
  intros Hin Hg. apply marks_complete. left. exists wf. split; [done|].
  exists c. by apply green_at_Some.
Qed.

Lemma elem_of_colored g (v : COLORS) c :
  c ∈ Set_from (map character (filter (λ p, value p = v) (allWordFilters g)))
  ↔ ∃ wf, wf ∈ wordFilters g ∧ {| character := c; value := v |} ∈ positions wf.
Proof.
  rewrite elem_of_Set_from, list_elem_of_In, in_map_iff. unfold allWordFilters. split.
  - intros ([c' v'] & Hc & Hp). simpl in Hc. subst c'.
    apply list_elem_of_In, list_elem_of_filter in Hp as [Hv Hp]. simpl in Hv. subst v'.
    apply list_elem_of_In, in_concat in Hp as (ps & Hps & Hp).
    apply in_map_iff in Hps as (wf & <- & Hwf).
    exists wf. by rewrite !list_elem_of_In.
  - intros (wf & Hwf & Hp). exists {| character := c; value := v |}. split; [done|].
    apply list_elem_of_In, list_elem_of_filter. split; [done|].
    apply list_elem_of_In, in_concat. exists (positions wf).
    rewrite in_map_iff, <- list_elem_of_In. split; [|done].
    exists wf. by rewrite <- list_elem_of_In.
Qed.

Lemma elem_of_grayChars g c :
  c ∈ grayChars g
  ↔ (Some c ∉ greenChars g)
    ∧ ∃ wf, wf ∈ wordFilters g ∧ {| character := c; value := GRAY |} ∈ positions wf.
Proof.
  unfold grayChars. by rewrite list_elem_of_filter, includes_false, elem_of_colored.
Qed.

Lemma elem_of_yellowChars g c :
  c ∈ yellowChars g
  ↔ (Some c ∉ greenChars g)
    ∧ ∃ wf, wf ∈ wordFilters g ∧ {| character := c; value := YELLOW |} ∈ positions wf.
Proof.
  unfold yellowChars. by rewrite list_elem_of_filter, includes_false, elem_of_colored.
Qed.

(** What a record of [newTry] says of the secret. *)
Lemma newTry_green g word i c :
  positions (newTry g word) !! i = Some {| character := c; value := GREEN |} →
  characters (secretWord g) !! i = Some c.
Proof.
  rewrite newTry_lookup. destruct (characters word !! i) as [c'|]; simpl; [|done].
  intros [= Hp]. apply classify_green.
  pose proof (settle_character (greenCharsOf (firstPass (secretWord g) word))
                (classify (secretWord g) i c')) as Hc.
  rewrite Hp, classify_character in Hc. simpl in Hc. subst c'.
  eapply settle_green. by rewrite Hp.
Qed.

Lemma newTry_yellow g word c :
  {| character := c; value := YELLOW |} ∈ positions (newTry g word) →
  c ∈ characters (secretWord g).
Proof.
  intros [i Hi]%list_elem_of_lookup. rewrite newTry_lookup in Hi.
  destruct (characters word !! i) as [c'|]; simpl in Hi; [|done].
  injection Hi as Hp.
  set (greens := greenCharsOf _) in Hp.
  pose proof (settle_character greens (classify (secretWord g) i c')) as Hc.
  rewrite Hp, classify_character in Hc. simpl in Hc. subst c'.
  destruct (settle_value greens (classify (secretWord g) i c)) as [Hv|(_ & _ & Hv)];
    rewrite Hp in Hv; simpl in Hv; [|done].
  unfold classify in Hv. case_bool_decide; [done|].
  destruct (includes c (characters (secretWord g))) eqn:Hin; [|done].
  by apply includes_true.
Qed.

Lemma newTry_gray g word c :
  {| character := c; value := GRAY |} ∈ positions (newTry g word) →
  c ∉ characters (secretWord g)
  ∨ ∃ i, positions (newTry g word) !! i = Some {| character := c; value := GREEN |}.
Proof.
  intros [i Hi]%list_elem_of_lookup. rewrite newTry_lookup in Hi.
  destruct (characters word !! i) as [c'|]; simpl in Hi; [|done].
  injection Hi as Hp.
  set (greens := greenCharsOf _) in Hp.
  pose proof (settle_character greens (classify (secretWord g) i c')) as Hc.
  rewrite Hp, classify_character in Hc. simpl in Hc. subst c'.
  destruct (settle_value greens (classify (secretWord g) i c)) as [Hv|(_ & Hin & _)].
  - left. rewrite Hp in Hv. simpl in Hv. unfold classify in Hv.
    case_bool_decide; [done|].
    destruct (includes c (characters (secretWord g))) eqn:Hin; [done|].
    by apply includes_false.
  - right. rewrite classify_character in Hin.
    apply elem_of_greenCharsOf.
    by rewrite newTry_positions, greenCharsOf_settle.
Qed.
End Aggregator.

(** C3, as the claim words it, fails: [grayChars] drops the characters that
    [greenChars] holds and nothing else, so a history with a character both
    YELLOW and GRAY, none of it GREEN, has it in [grayChars] and in
    [yellowChars]. *)
Lemma grayChars_meets_yellowChars :
  ¬ (∀ (g : Game) (c : ascii), c ∈ grayChars g → c ∉ yellowChars g).
Proof.
  intros Hclaim.
  set (record := {| positions :=
    [ {| character := "a"%char; value := YELLOW |};
      {| character := "a"%char; value := GRAY |};
      {| character := "b"%char; value := GRAY |};
      {| character := "c"%char; value := GRAY |};
      {| character := "d"%char; value := GRAY |} ] |}).
  apply (Hclaim (push_filter (new_Game "" []) record) "a"%char).
  - apply includes_true. reflexivity.
  - apply includes_true. reflexivity.
Qed.

(** C3, amended: a character of [grayChars] is never one that [greenChars]
    holds, whatever the history; and when every record of the history is
    the feedback of [newTry] against the secret of the game, it is not in
    [yellowChars] either. *)
Theorem grayChars_exclusion (g : Game) (c : ascii) :
  c ∈ grayChars g →
  (Some c ∉ greenChars g)
  ∧ ((∀ wf, wf ∈ wordFilters g → ∃ word, wf = newTry g word) → c ∉ yellowChars g).
Proof.
  intros (Hgreen & wf & Hwf & Hgray)%elem_of_grayChars. split; [done|].
  intros Hplayed (_ & wf' & Hwf' & Hyellow)%elem_of_yellowChars.
  destruct (Hplayed wf Hwf) as [word ->].
  destruct (Hplayed wf' Hwf') as [word' ->].
  apply newTry_yellow in Hyellow.
  apply newTry_gray in Hgray as [Habsent|[i Hi]]; [done|].
  apply Hgreen, elem_of_resolved. exists i.
  destruct (greenChars_complete g _ i c Hwf Hi) as [c' Hc'].
  rewrite Hc'. f_equal.
  apply greenChars_sound in Hc' as (wf'' & Hwf'' & Hi'').
  destruct (Hplayed wf'' Hwf'') as [word'' ->].
  apply newTry_green in Hi, Hi''. congruence.
Qed.

Lemma grayChars_exclusion_witness :
  let g0 := new_Game "aabcd" ["aabcd"; "xbyzw"; "abxya"] in
  let g1 := push_filter g0 (newTry g0 (new_Word "xbyzw")) in
  let g2 := push_filter g1 (newTry g1 (new_Word "abxya")) in
  (Some "x"%char ∉ greenChars g2) ∧ "x"%char ∉ yellowChars g2.
Proof.
  intros g0 g1 g2.
  destruct (grayChars_exclusion g2 "x"%char) as [Hgreen Hyellow].
  - apply includes_true. reflexivity.
  - split; [exact Hgreen|]. apply Hyellow. intros wf Hwf.
    apply elem_of_cons in Hwf as [->|Hwf]; [by exists (new_Word "xbyzw")|].
    apply elem_of_cons in Hwf as [->|Hwf]; [by exists (new_Word "abxya")|].
    by apply elem_of_nil in Hwf.
Defined.

(** ** The selection of the next guess *)

Section Selection.
Context `{Host}.
Implicit Types (g : Game) (tgw : list (string * list Word)).

Lemma fold_left_min rest : ∀ v,
  (fold_left Nat.min rest v = v ∨ fold_left Nat.min rest v ∈ rest)
  ∧ (fold_left Nat.min rest v ≤ v)%nat
  ∧ ∀ x, x ∈ rest → (fold_left Nat.min rest v ≤ x)%nat.
Proof.
  induction rest as [|y rest IH]; intros v; simpl.
  - split_and!; [by left|done|]. by intros x ?%elem_of_nil.
  - destruct (IH (Nat.min v y)) as (Hin & Hle & Hall). split_and!.
    + destruct Hin as [Heq|Hin]; [|right; by apply list_elem_of_further].
      rewrite Heq. destruct (Nat.min_spec v y) as [[_ ->]|[_ ->]]; [by left|].
      right. apply list_elem_of_here.
    + lia.
    + intros x [->|Hx]%elem_of_cons; [lia|by apply Hall].
Qed.

Lemma Math_min_spec (values : list nat) :
  values ≠ [] →
  ∃ m, Math_min values = Some m ∧ m ∈ values ∧ ∀ x, x ∈ values → (m ≤ x)%nat.
Proof.
  destruct values as [|v rest]; [done|]. intros _. simpl.
  destruct (fold_left_min rest v) as (Hin & Hle & Hall).
  eexists. split_and!; [done| |].
  - destruct Hin as [->|Hin]; [apply list_elem_of_here|by apply list_elem_of_further].
  - intros x [->|Hx]%elem_of_cons; [done|by apply Hall].
Qed.

Lemma findIndex_is_Some {A} (p : A → bool) (arr : list A) x :
  x ∈ arr → p x = true → is_Some (findIndex p arr).
Proof.
  induction 1 as [x arr|x y arr Hin IH]; intros Hp; simpl.
  - by rewrite Hp.
  - destruct (p y); [done|]. destruct (IH Hp) as [i ->]. done.
Qed.

Lemma findIndex_Some {A} (p : A → bool) (arr : list A) : ∀ i,
  findIndex p arr = Some i →
  (∃ x, arr !! i = Some x ∧ p x = true)
  ∧ ∀ j y, (j < i)%nat → arr !! j = Some y → p y = false.
Proof.
  induction arr as [|x arr IH]; intros i Hi; simpl in Hi; [done|].
  destruct (p x) eqn:Hp.
  - injection Hi as <-. split; [by exists x|]. intros; lia.
  - destruct (findIndex p arr) as [i'|]; simpl in Hi; [|done].
    injection Hi as <-. destruct (IH i' eq_refl) as [Hx Hbefore].
    split; [done|]. intros [|j] y Hj Hy; simpl in Hy.
    + congruence.
    + apply (Hbefore j); [lia|done].
Qed.

Lemma Object_get_lookup {A} (obj : list (string * A)) : ∀ i k v,
  NoDup (map fst obj) → obj !! i = Some (k, v) → Object_get obj k = Some v.
Proof.
  induction obj as [|[k' v'] obj IH]; intros i k v Hdup Hi; [done|].
  simpl in *. apply NoDup_cons in Hdup as [Hnew Hdup].
  destruct i as [|i]; simpl in Hi.
  - injection Hi as -> ->. by rewrite bool_decide_eq_true_2.
  - rewrite bool_decide_eq_false_2; [by eapply IH|].
    intros ->. apply Hnew, list_elem_of_In, in_map_iff.
    exists (k, v). split; [done|]. apply list_elem_of_In. by eapply list_elem_of_lookup_2.
Qed.

(** The key that [guessWord] uses: the first, in the order of the keys,
    whose bucket has the fewest words. *)
Lemma usedKey_spec tgw :
  tgw ≠ [] →
  ∃ i key bucket,
    tgw !! i = Some (key, bucket)
    ∧ usedKey tgw = Some key
    ∧ (∀ j k b, tgw !! j = Some (k, b) → (length bucket ≤ length b)%nat)
    ∧ (∀ j k b, (j < i)%nat → tgw !! j = Some (k, b) → (length bucket < length b)%nat).
Proof.
  intros Hne. unfold usedKey.
  set (values := map (λ e : string * list Word, length e.2) tgw).
  assert (∀ j, values !! j = (λ e : string * list Word, length e.2) <$> tgw !! j) as Hvalues.
  { intros j. unfold values. change (map ?f ?l) with (f <$> l). apply list_lookup_fmap. }
  destruct (Math_min_spec values) as (m & -> & Hin & Hmin).
  { unfold values. by destruct tgw. }
  destruct (findIndex_is_Some (λ e, bool_decide (Some e = Some m)) values m Hin) as [i Hi].
  { by apply bool_decide_eq_true. }
  rewrite Hi. simpl.
  apply findIndex_Some in Hi as [(x & Hx & Hpx) Hbefore].
  apply bool_decide_eq_true in Hpx. injection Hpx as ->.
  rewrite Hvalues in Hx.
  destruct (tgw !! i) as [[key bucket]|] eqn:Htgw; simpl in Hx; [|done].
  injection Hx as Hm. exists i, key, bucket. split_and!.
  - done.
  - change (map ?f ?l) with (f <$> l). by rewrite list_lookup_fmap, Htgw.
  - intros j k b Hj. rewrite Hm. apply Hmin.
    apply list_elem_of_lookup_2 with j. by rewrite Hvalues, Hj.
  - intros j k b Hlt Hj.
    assert (m ≤ length b)%nat as Hle.
    { apply Hmin, list_elem_of_lookup_2 with j. by rewrite Hvalues, Hj. }
    assert (length b ≠ m) as Hdiff.
    { intros Heq. specialize (Hbefore j (length b) Hlt).
      rewrite Hvalues, Hj in Hbefore. specialize (Hbefore eq_refl).
      apply bool_decide_eq_false in Hbefore. congruence. }
    lia.
Qed.

Lemma bucket_filter {A} (p : A → bool) (f : Word → A) (ws : list Word) :
  map snd (filter (λ e : A * Word, p e.1 = true) (map (λ w, (f w, w)) ws))
  = filter (λ w, p (f w) = true) ws.
Proof.
  induction ws as [|w ws IH]; [done|]. simpl map at 2.
  rewrite !filter_cons. simpl. case_decide; simpl; by rewrite IH.
Qed.

Lemma typeGradedWords_gradedWordsOf g :
  typeGradedWords (gradedWordsOf g)
  = let pass (p : evaluation → bool) :=
      filter (λ w, p (evaluateWord g w).1 = true) (remainingWords g) in
    [ ("g", pass gray); ("v", pass green); ("y", pass yellow);
      ("gv", pass (λ e, gray e && green e));
      ("gy", pass (λ e, gray e && yellow e));
      ("yv", pass (λ e, green e && yellow e));
      ("gvy", pass (λ e, gray e && green e && yellow e)) ].
Proof.
  unfold typeGradedWords, gradedWordsOf. cbv zeta.
  set (f := λ w, (evaluateWord g w).1).
  by rewrite (bucket_filter gray f), (bucket_filter green f), (bucket_filter yellow f),
    (bucket_filter (λ e, gray e && green e) f),
    (bucket_filter (λ e, gray e && yellow e) f),
    (bucket_filter (λ e, green e && yellow e) f),
    (bucket_filter (λ e, gray e && green e && yellow e) f).
Qed.

Lemma typeGradedWords_keys gradedWords :
  map fst (typeGradedWords gradedWords) = ["g"; "v"; "y"; "gv"; "gy"; "yv"; "gvy"].
Proof. reflexivity. Qed.

Lemma typeGradedWords_NoDup gradedWords : NoDup (map fst (typeGradedWords gradedWords)).
Proof.
  rewrite typeGradedWords_keys.
  repeat (apply NoDup_cons_2; [apply includes_false; reflexivity|]).
  apply NoDup_nil_2.
Qed.

Lemma guessWord_many g :
  (1 < length (remainingWords g))%nat →
  guessWord g
  = let tgw := typeGradedWords (gradedWordsOf g) in
    let key := usedKey tgw in
    let out := concat (map (λ w, (evaluateWord g w).2) (remainingWords g))
                 ++ [LogUsingTypeGrade key] in
    match key ≫= Object_get tgw with
    | None => (Throw TypeError, out)
    | Some bucket =>
        match gradeWords g [number_of_nat 1; number_of_nat 1; number_of_nat 1] bucket with
        | [] => (Throw TypeError, out)
        | best :: _ => (Return (word best), out)
        end
    end.
Proof.
  intros Hmany. unfold guessWord, gradedWordsOf.
  destruct (remainingWords g) as [|w1 [|w2 rest]]; simpl in Hmany; [lia..|].
  cbv zeta. by rewrite !map_map.
Qed.

Lemma gradeWords_nil g params : gradeWords g params [] = [].
Proof. 
  unfold gradeWords. simpl. apply Permutation_nil. symmetry.
  apply Array_sort_Permutation.
Qed.
End Selection.

(** C4: with more than one word left, the words are sorted into the seven
    buckets g, v, y, gv, gy, yv, gvy, each holding the words that pass the
    filters its key names, and [guessWord] ranks the bucket with the fewest
    words, the first such in the order of the keys: no bucket has fewer
    words and every bucket before it has more. *)
Theorem guessWord_smallest_bucket `{Host} (g : Game) :
  (1 < length (remainingWords g))%nat →
  let pass (p : evaluation → bool) :=
    filter (λ w, p (evaluateWord g w).1 = true) (remainingWords g) in
  let buckets :=
    [ ("g", pass gray); ("v", pass green); ("y", pass yellow);
      ("gv", pass (λ e, gray e && green e));
      ("gy", pass (λ e, gray e && yellow e));
      ("yv", pass (λ e, green e && yellow e));
      ("gvy", pass (λ e, gray e && green e && yellow e)) ] in
  typeGradedWords (gradedWordsOf g) = buckets
  ∧ ∃ i key bucket printed,
      buckets !! i = Some (key, bucket)
      ∧ (∀ j k b, buckets !! j = Some (k, b) → (length bucket ≤ length b)%nat)
      ∧ (∀ j k b, (j < i)%nat → buckets !! j = Some (k, b) → (length bucket < length b)%nat)
      ∧ guessWord g
        = (match gradeWords g [number_of_nat 1; number_of_nat 1; number_of_nat 1] bucket with
           | [] => Throw TypeError
           | best :: _ => Return (word best)
           end,
           printed ++ [LogUsingTypeGrade (Some key)]).
Proof.
  intros Hmany pass buckets.
  pose proof (typeGradedWords_gradedWordsOf g) as Htgw. cbv zeta in Htgw.
  fold pass in Htgw. fold buckets in Htgw. split; [done|].
  destruct (usedKey_spec buckets) as (i & key & bucket & Hi & Hkey & Hmin & Hfirst); [done|].
  exists i, key, bucket, (concat (map (λ w, (evaluateWord g w).2) (remainingWords g))).
  split_and!; [done..|].
  rewrite guessWord_many by done. cbv zeta. rewrite Htgw, Hkey.
  change (Some key ≫= Object_get buckets) with (Object_get buckets key).
  rewrite (Object_get_lookup buckets i key bucket); [|by rewrite <- Htgw; apply typeGradedWords_NoDup|done].
  by destruct (gradeWords _ _ _).
Qed.

Lemma guessWord_smallest_bucket_witness :
  let H := RationalHost.host in
  let g := new_Game "abcdf" ["abcde"; "abcdf"; "abcdg"] in
  ∃ key bucket printed,
    guessWord g
    = (match gradeWords g [number_of_nat 1; number_of_nat 1; number_of_nat 1] bucket with
       | [] => Throw TypeError
       | best :: _ => Return (word best)
       end,
       printed ++ [LogUsingTypeGrade (Some key)]).
Proof.
  intros H g.
  destruct (guessWord_smallest_bucket (H := H) g)
    as (_ & i & key & bucket & printed & _ & _ & _ & Hguess).
  - vm_compute. lia.
  - by exists key, bucket, printed.
Defined.

(** C6: with exactly one word left, [guessWord] returns that word, whatever
    the host's numbers, table and sort are, and prints nothing: the buckets,
    whose key is always printed, are not made and nothing is ranked. *)
Theorem guessWord_forced `{Host} (g : Game) (w : Word) :
  remainingWords g = [w] → guessWord g = (Return w, []).
Proof. intros Hone. unfold guessWord. by rewrite Hone. Qed.

Lemma guessWord_forced_witness :
  guessWord (H := RationalHost.host)
    (push_filter (new_Game "abcdf" ["abcde"; "abcdf"])
       (newTry (new_Game "abcdf" []) (new_Word "abcde")))
  = (Return (new_Word "abcdf"), []).
Proof. apply guessWord_forced. vm_compute. reflexivity. Defined.

(** C7: [guessWord] throws its error of no words remaining exactly when no
    word is left, but this is not its only failure: for the dictionary
    abcde, abcdf, abcdg and the secret zzzzz, whichever word is guessed
    first, two words are left and [guessWord] throws a TypeError, the
    bucket it ranks being empty. *)
Theorem guessWord_throws_on_empty_bucket `{Host} :
  (∀ g, (guessWord g).1 = Throw (Error "No words remaining") ↔ remainingWords g = [])
  ∧ (let g0 := new_Game "zzzzz" ["abcde"; "abcdf"; "abcdg"] in
     ∀ first, first ∈ allWords g0 →
       let g1 := push_filter g0 (newTry g0 first) in
       length (remainingWords g1) = 2 ∧ (guessWord g1).1 = Throw TypeError).
Proof.
  split.
  - intros g. split.
    + intros Hthrow. destruct (remainingWords g) as [|w1 [|w2 rest]] eqn:Hrem; [done| |].
      * unfold guessWord in Hthrow. by rewrite Hrem in Hthrow.
      * rewrite guessWord_many in Hthrow by (rewrite Hrem; simpl; lia).
        cbv zeta in Hthrow. destruct (_ ≫= _); [destruct (gradeWords _ _ _)|]; done.
    + intros Hnone. unfold guessWord. by rewrite Hnone.
  - intros g0 first Hfirst g1.
    change (allWords g0) with [new_Word "abcde"; new_Word "abcdf"; new_Word "abcdg"] in Hfirst.
    assert (length (remainingWords g1) = 2
            ∧ usedKey (typeGradedWords (gradedWordsOf g1))
                ≫= Object_get (typeGradedWords (gradedWordsOf g1)) = Some []) as [Hlen Hkey].
    { unfold g1.
      repeat (apply elem_of_cons in Hfirst as [->|Hfirst]; [by vm_compute|]).
      by apply elem_of_nil in Hfirst. }
    split; [done|].
    rewrite guessWord_many by lia. cbv zeta. by rewrite Hkey, gradeWords_nil.
Qed.

(** C8, as the claim words it, fails: the constructor of [Word] has no
    check of the length, and the empty string, which the program itself
    passes as a secret, makes a word. *)
Lemma Word_construct_wrong_length :
  ¬ (∀ text : string, String.length text ≠ L → ∃ e, Word_construct text = Throw e).
Proof.
  intros Hclaim. destruct (Hclaim "") as [e He]; [|done].
  unfold L. simpl. lia.
Qed.

(** C8, amended: constructing a [Word] succeeds for every string, of
    whatever length; the word holds the characters of the string in order,
    as many as the string has, and [toString] gives the string back. *)
Theorem Word_construct_total (text : string) :
  ∃ w, Word_construct text = Return w
       ∧ characters w = list_ascii_of_string text
       ∧ length (characters w) = String.length text
       ∧ Word_toString w = text.
Proof.
  exists (new_Word text). split_and!; [done..| |].
  - simpl. induction text as [|c text IH]; simpl; [done|by rewrite IH].
  - apply string_of_list_ascii_of_string.
Qed.

(** ** The trainer *)

Section Trainer_facts.
Variable newParams : nat → list Q.
Variable avg : nat → Q.

Lemma loop_bestAvg i b :
  (bestAvg (loop newParams avg i b) <= bestAvg b)%Q
  ∧ (bestAvg (loop newParams avg i b) <= avg i)%Q.
Proof.
  unfold loop. destruct (Qlt_le_dec (avg i) (bestAvg b)) as [Hlt|Hle]; simpl.
  - split; [by apply Qlt_le_weak|apply Qle_refl].
  - split; [apply Qle_refl|done].
Qed.

Lemma train_bestAvg_le n : ∀ i, (i < n)%nat →
  (bestAvg (train newParams avg n) <= avg i)%Q.
Proof.
  induction n as [|n IH]; intros i Hi; [lia|]. simpl.
  destruct (decide (i = n)) as [->|Hne].
  - apply (proj2 (loop_bestAvg n (train newParams avg n))).
  - eapply Qle_trans; [apply (proj1 (loop_bestAvg n (train newParams avg n)))|].
    apply IH. lia.
Qed.
End Trainer_facts.

(** C9: the random draws being fixed, the best average of [train] does not
    grow from one generation to the next, and once the first generation is
    over it is at most the average of the first parameters drawn. *)
Theorem train_bestAvg_monotone (newParams : nat → list Q) (avg : nat → Q) :
  (∀ n, bestAvg (train newParams avg (S n)) <= bestAvg (train newParams avg n))%Q
  ∧ (∀ n, bestAvg (train newParams avg (S n)) <= avg 0%nat)%Q.
Proof.
  split; intros n.
  - apply (proj1 (loop_bestAvg newParams avg n (train newParams avg n))).
  - apply train_bestAvg_le. lia.
Qed.

(** ** A history played against the secret *)

Section Played.
Implicit Types (g : Game) (word : Word).

Lemma newTry_characters g word :
  map character (positions (newTry g word)) = characters word.
Proof.
  rewrite newTry_positions, map_map, <- (firstPass_characters (secretWord g) word).
  apply map_ext. intros p. apply settle_character.
Qed.

Lemma Word_toString_inj (w1 w2 : Word) :
  Word_toString w1 = Word_toString w2 → characters w1 = characters w2.
Proof.
  unfold Word_toString. intros Heq.
  by rewrite <- (list_ascii_of_string_of_list_ascii (characters w1)), Heq,
    list_ascii_of_string_of_list_ascii.
Qed.

Lemma usedWords_push_newTry g word :
  usedWords (push_filter g (newTry g word)) = usedWords g ++ [Word_toString word].
Proof.
  unfold usedWords.
  change (wordFilters (push_filter g (newTry g word))) with (wordFilters g ++ [newTry g word]).
  rewrite map_app. f_equal. unfold Word_toString.
  by rewrite <- (newTry_characters g word).
Qed.

Lemma remainingWords_push_newTry g word :
  remainingWords (push_filter g (newTry g word))
  = filter (λ w, Word_toString w ≠ Word_toString word) (remainingWords g).
Proof.
  unfold remainingWords. rewrite usedWords_push_newTry, list_filter_filter.
  change (allWords (push_filter g (newTry g word))) with (allWords g).
  apply list_filter_iff. intros w.
  rewrite !includes_false, elem_of_app, list_elem_of_singleton. tauto.
Qed.

Lemma played_push g word : played g → played (push_filter g (newTry g word)).
Proof.
  intros Hplayed wf Hwf. simpl in Hwf.
  apply elem_of_app in Hwf as [Hwf|Hwf%list_elem_of_singleton].
  - destruct (Hplayed wf Hwf) as [word' ->]. by exists word'.
  - exists word. by subst.
Qed.

Lemma played_greenChars g j c :
  played g → greenChars g !! j = Some (Some c) → characters (secretWord g) !! j = Some c.
Proof.
  intros Hplayed Hj%resolved_Some.
  apply greenChars_sound in Hj as (wf & Hwf & Hj).
  destruct (Hplayed wf Hwf) as [word ->]. by apply newTry_green in Hj.
Qed.

Lemma played_yellowChars g c :
  played g → c ∈ yellowChars g → c ∈ characters (secretWord g).
Proof.
  intros Hplayed (_ & wf & Hwf & Hyellow)%elem_of_yellowChars.
  destruct (Hplayed wf Hwf) as [word ->]. by apply newTry_yellow in Hyellow.
Qed.

Lemma played_grayChars g c :
  played g → c ∈ grayChars g → c ∉ characters (secretWord g).
Proof.
  intros Hplayed (Hgreen & wf & Hwf & Hgray)%elem_of_grayChars Hsecret.
  destruct (Hplayed wf Hwf) as [word ->].
  apply newTry_gray in Hgray as [Habsent|[i Hi]]; [done|].
  apply Hgreen, elem_of_resolved. exists i.
  destruct (greenChars_complete g _ i c Hwf Hi) as [c' Hc'].
  rewrite Hc'. f_equal.
  apply resolved_Some, played_greenChars in Hc'; [|done].
  apply newTry_green in Hi. congruence.
Qed.

Lemma evaluateWord_as_secret g word :
  played g →
  characters word = characters (secretWord g) →
  (evaluateWord g word).1 = {| gray := true; green := true; yellow := true |}.
Proof.
  intros Hplayed Hword. unfold evaluateWord. simpl. f_equal.
  - apply negb_true_iff, not_true_iff_false. rewrite existsb_exists.
    intros (c & Hc%list_elem_of_In & Hin%includes_true). rewrite Hword in Hin.
    by apply (played_grayChars g c).
  - apply every_i_true. intros i [c|] Hi; [|done].
    apply bool_decide_eq_true. rewrite Hword. by apply played_greenChars.
  - apply every_i_true. intros i c Hi. unfold hasChar.
    rewrite (proj2 (includes_true c (characters word))); simpl.
    + by destruct (negb _).
    + rewrite Hword. apply played_yellowChars; [done|]. by eapply list_elem_of_lookup_2.
Qed.

Lemma isWin_newTry_as_secret g word :
  characters word = characters (secretWord g) → isWin (newTry g word) = true.
Proof.
  intros Hword. unfold isWin. apply forallb_forall.
  intros p [i Hi]%list_elem_of_In%list_elem_of_lookup.
  apply bool_decide_eq_true. rewrite newTry_lookup in Hi.
  destruct (characters word !! i) as [c|] eqn:Hc; simpl in Hi; [|done].
  injection Hi as <-. apply settle_green, classify_green. by rewrite <- Hword.
Qed.
End Played.

(** ** What [guessWord] returns, and a whole game *)

Section Game_play.
Context `{Host}.
Implicit Types (g : Game) (word : Word).

Lemma gradeWords_words g params (words : list Word) :
  map word (gradeWords g params words) ≡ₚ words.
Proof.
  unfold gradeWords. etrans; [apply Permutation_map, Array_sort_Permutation|].
  rewrite map_map. simpl. by rewrite map_id.
Qed.

Lemma Object_get_Some {A} (obj : list (string * A)) key v :
  Object_get obj key = Some v → (key, v) ∈ obj.
Proof.
  induction obj as [|[k' v'] obj IH]; simpl; [done|].
  case_bool_decide as Hk.
  - intros [= ->]. subst. apply list_elem_of_here.
  - intros Hget. by apply list_elem_of_further, IH.
Qed.

Lemma bucket_words g key bucket w :
  (key, bucket) ∈ typeGradedWords (gradedWordsOf g) →
  (w ∈ bucket → w ∈ remainingWords g)
  ∧ (w ∈ remainingWords g →
     (evaluateWord g w).1 = {| gray := true; green := true; yellow := true |} →
     w ∈ bucket).
Proof.
  rewrite typeGradedWords_gradedWordsOf. cbv zeta beta. intros Hin.
  repeat (apply elem_of_cons in Hin as [[= _ ->]|Hin];
          [split;
           [by intros [_ ?]%list_elem_of_filter
           |intros ? Hall; apply list_elem_of_filter; split; [|done];
            first [ exact (f_equal gray Hall) | exact (f_equal green Hall)
                  | exact (f_equal yellow Hall)
                  | exact (f_equal (λ e, gray e && green e) Hall)
                  | exact (f_equal (λ e, gray e && yellow e) Hall)
                  | exact (f_equal (λ e, green e && yellow e) Hall)
                  | exact (f_equal (λ e, gray e && green e && yellow e) Hall) ]]|]).
  by apply elem_of_nil in Hin.
Qed.

Lemma guessWord_Return_remaining g w out :
  guessWord g = (Return w, out) → w ∈ remainingWords g.
Proof.
  destruct (remainingWords g) as [|w1 [|w2 rest]] eqn:Hrem.
  - unfold guessWord. by rewrite Hrem.
  - unfold guessWord. rewrite Hrem. intros [= <- _]. apply list_elem_of_here.
  - rewrite guessWord_many by (rewrite Hrem; simpl; lia). cbv zeta.
    destruct (_ ≫= _) as [bucket|] eqn:Hbucket; [|done].
    destruct (usedKey _) as [key|]; [|done].
    apply (Object_get_Some _ key bucket) in Hbucket.
    pose proof (gradeWords_words g [number_of_nat 1; number_of_nat 1; number_of_nat 1] bucket)
      as Hperm.
    destruct (gradeWords _ _ _) as [|best ranked]; [done|]. intros [= <- _].
    rewrite <- Hrem. apply (bucket_words g key bucket _ Hbucket).
    rewrite <- Hperm. apply list_elem_of_here.
Qed.

Lemma guessWord_Return_played g ws :
  played g →
  ws ∈ remainingWords g →
  characters ws = characters (secretWord g) →
  ∃ w out, guessWord g = (Return w, out).
Proof.
  intros Hplayed Hws Hsecret.
  destruct (remainingWords g) as [|w1 [|w2 rest]] eqn:Hrem.
  - by apply elem_of_nil in Hws.
  - unfold guessWord. rewrite Hrem. eauto.
  - rewrite <- Hrem in Hws.
    rewrite guessWord_many by (rewrite Hrem; simpl; lia). cbv zeta.
    destruct (usedKey_spec (typeGradedWords (gradedWordsOf g)))
      as (i & key & bucket & Hi & -> & _); [done|].
    change (Some key ≫= ?f) with (f key).
    rewrite (Object_get_lookup _ i key bucket); [|apply typeGradedWords_NoDup|done].
    assert (ws ∈ bucket) as Hin.
    { apply (bucket_words g key bucket); [by eapply list_elem_of_lookup_2|done|].
      by apply evaluateWord_as_secret. }
    pose proof (gradeWords_words g [number_of_nat 1; number_of_nat 1; number_of_nat 1] bucket)
      as Hperm.
    destruct (gradeWords _ _ _) as [|best ranked]; [|eauto].
    apply Permutation_nil in Hperm. subst bucket. by apply elem_of_nil in Hin.
Qed.

(** A game with the secret among the words left is won, in no more tries
    than there are words left, whatever the fuel from there up. *)
Lemma play_wins verbose : ∀ fuel g ws,
  played g →
  (length (remainingWords g) ≤ fuel)%nat →
  ws ∈ remainingWords g →
  characters ws = characters (secretWord g) →
  ∃ g' out guesses,
    play fuel verbose g = Some (Return g', out)
    ∧ wordFilters g' = wordFilters g ++ map (newTry g) guesses
    ∧ secretWord g' = secretWord g
    ∧ (1 ≤ length guesses ≤ length (remainingWords g))%nat
    ∧ (∀ w, w ∈ guesses → w ∈ remainingWords g)
    ∧ ∃ w, last guesses = Some w ∧ isWin (newTry g w) = true.
Proof.
  induction fuel as [|fuel IH]; intros g ws Hplayed Hfuel Hws Hsecret.
  - destruct (remainingWords g); [by apply elem_of_nil in Hws|simpl in Hfuel; lia].
  - destruct (guessWord_Return_played g ws) as (w & out & Hguess); [done..|].
    pose proof (guessWord_Return_remaining g w out Hguess) as Hw.
    simpl. rewrite Hguess.
    assert (1 ≤ length (remainingWords g))%nat as Hone.
    { destruct (remainingWords g); [by apply elem_of_nil in Hw|simpl; lia]. }
    destruct (isWin (newTry g w)) eqn:Hwin.
    + eexists _, _, [w]. split_and!; [done|done|done|simpl; lia|simpl; lia| |by exists w].
      by intros w' ->%list_elem_of_singleton.
    + set (g1 := push_filter g (newTry g w)).
      assert (Word_toString ws ≠ Word_toString w) as Hother.
      { intros Heq%Word_toString_inj. rewrite isWin_newTry_as_secret in Hwin; congruence. }
      assert (length (remainingWords g1) < length (remainingWords g))%nat as Hless.
      { unfold g1. rewrite remainingWords_push_newTry.
        apply (length_filter_lt _ _ w); [done|]. by intros []. }
      destruct (IH g1 ws) as (g' & later & guesses & -> & Hfilters & Hsec & Hlen & Hin & Hlast).
      { by apply played_push. }
      { lia. }
      { unfold g1. rewrite remainingWords_push_newTry. by apply list_elem_of_filter. }
      { done. }
      eexists _, _, (w :: guesses). split_and!; [done| |done|simpl; lia|simpl; lia| |].
      * rewrite Hfilters. unfold g1. simpl. by rewrite <- app_assoc.
      * intros w' [->|Hw']%elem_of_cons; [done|].
        apply Hin in Hw'. unfold g1 in Hw'. rewrite remainingWords_push_newTry in Hw'.
        by apply list_elem_of_filter in Hw' as [_ ?].
      * destruct Hlast as (w' & Hlast & Hwin'). exists w'. split; [|done].
        destruct guesses; [done|]. done.
Qed.
End Game_play.

(** ** The filters of a record, on the secret it was computed from *)

Section Record_filters.
Implicit Types (g : Game) (word : Word) (wf : WordFilter).


Lemma every_logged_returns {A E} (f : A → outcome bool * list E) (arr : list A) :
  (∀ x, x ∈ arr → ∃ b, (f x).1 = Return b) → ∃ b, (every_logged f arr).1 = Return b.
Proof.
  induction arr as [|x arr IH]; intros Hall; simpl; [by eexists|].
  destruct (Hall x (list_elem_of_here _ _)) as [b Hb].
  destruct (f x) as [[[]|e] out]; simpl in *; [|by eexists|done].
  apply IH. intros y Hy. by apply Hall, list_elem_of_further.
Qed.


(** A character that a record of [newTry] shows GREEN at some index is
    YELLOW at none. *)
Lemma newTry_green_not_yellow g word i c :
  positions (newTry g word) !! i = Some {| character := c; value := GREEN |} →
  {| character := c; value := YELLOW |} ∉ positions (newTry g word).
Proof.
  intros Hgreen [j Hj]%list_elem_of_lookup.
  assert (c ∈ greenCharsOf (firstPass (secretWord g) word)) as Hin.
  { rewrite <- (greenCharsOf_settle (greenCharsOf (firstPass (secretWord g) word))),
      <- newTry_positions.
    apply elem_of_greenCharsOf. eauto. }
  rewrite newTry_lookup in Hj.
  destruct (characters word !! j) as [c'|]; simpl in Hj; [|done].
  injection Hj as Hj.
  set (greens := greenCharsOf (firstPass (secretWord g) word)) in *.
  set (p := classify (secretWord g) j c') in *.
  pose proof (settle_character greens p) as Hc. rewrite Hj in Hc. simpl in Hc.
  destruct (settle_value greens p) as [Hv|(_ & _ & Hv)]; rewrite Hj in Hv; simpl in Hv;
    [|done].
  unfold settle in Hj.
  rewrite (bool_decide_eq_true_2 (value p = YELLOW)) in Hj by done.
  rewrite (proj2 (includes_true (character p) greens)) in Hj by (by rewrite <- Hc).
  done.
Qed.





Lemma doesWordPassYellow_returns print wf word :
  (length (characters word) ≤ length (positions wf))%nat →
  ∃ b, (doesWordPassYellow print wf word).1 = Return b.
Proof.
  intros Hlen. apply every_logged_returns. intros p _.
  case_bool_decide; [|by eexists].
  destruct (findIndex _ _) as [k|] eqn:Hk; [|by eexists].
  apply findIndex_Some in Hk as [(c & Hc & _) _]. apply lookup_lt_Some in Hc.
  destruct (positions wf !! k) eqn:Hq; [by eexists|].
  apply lookup_ge_None in Hq. lia.
Qed.

Lemma every_logged_ext {A E} (f f' : A → outcome bool * list E) (arr : list A) :
  (∀ x, (f x).1 = (f' x).1) → (every_logged f arr).1 = (every_logged f' arr).1.
Proof.
  intros Hext. induction arr as [|x arr IH]; simpl; [done|].
  specialize (Hext x). destruct (f x) as [r out], (f' x) as [r' out'].
  simpl in Hext. subst r'. by destruct r as [[]|].
Qed.

Lemma doesWordPassYellow_print wf word :
  (doesWordPassYellow true wf word).1 = (doesWordPassYellow false wf word).1.
Proof.
  apply every_logged_ext. intros p. case_bool_decide; [|done].
  destruct (findIndex _ _); [|done]. by destruct (positions wf !! _).
Qed.
End Record_filters.

(** ** More on the constraints *)

Section Constraints.
Implicit Types (g : Game) (wf : WordFilter) (arr : list (option ascii)).

Lemma greenChars_push g wf :
  greenChars (push_filter g wf)
  = forEach_from mark_green 0 (positions wf) (greenChars g).
Proof.
  unfold greenChars.
  change (wordFilters (push_filter g wf)) with (wordFilters g ++ [wf]).
  by rewrite fold_left_app.
Qed.

Lemma resolved_greenChars_push g wf j :
  resolved (greenChars (push_filter g wf)) j
  = match green_at (positions wf) j with
    | Some c => Some c
    | None => resolved (greenChars g) j
    end.
Proof.
  rewrite greenChars_push, resolved_forEach_mark, decide_True by lia.
  by rewrite Nat.sub_0_r.
Qed.

Lemma length_array_set {A} i (x : A) (arr : list (option A)) :
  (length arr ≤ length (array_set i x arr))%nat.
Proof.
  unfold array_set. case_bool_decide.
  - by rewrite length_insert.
  - rewrite length_app. lia.
Qed.

Lemma length_forEach_mark ps : ∀ k arr,
  (length arr ≤ length (forEach_from mark_green k ps arr))%nat.
Proof.
  induction ps as [|p ps IH]; intros k arr; simpl; [done|].
  etrans; [|apply IH]. unfold mark_green. case_bool_decide; [|done].
  apply length_array_set.
Qed.

Lemma length_marks wfs : ∀ arr, (length arr ≤ length (marks wfs arr))%nat.
Proof.
  induction wfs as [|wf wfs IH]; intros arr; simpl; [done|].
  etrans; [|apply IH]. apply length_forEach_mark.
Qed.

Lemma NoDup_Set_from {A} `{EqDecision A} (l : list A) : NoDup (Set_from l).
Proof.
  induction l as [|x l IH]; simpl; [apply NoDup_nil_2|].
  apply NoDup_cons_2; [|by apply NoDup_filter].
  by intros [? _]%list_elem_of_filter.
Qed.
End Constraints.

(** ** Shuffling *)

Section Shuffle.
Context {A : Type}.
Implicit Types (arr : list A).

Lemma insert_Permutation arr : ∀ i a b,
  arr !! i = Some b → b :: <[i := a]> arr ≡ₚ a :: arr.
Proof.
  induction arr as [|c arr IH]; intros [|i] a b Hi; simpl in *; try done.
  - injection Hi as ->. apply Permutation_swap.
  - rewrite Permutation_swap, (IH i a b Hi). apply Permutation_swap.
Qed.

Lemma swap_Permutation arr : ∀ x y, swap arr x y ≡ₚ arr.
Proof.
  unfold swap. induction arr as [|a arr IH]; intros x y; [by destruct x|].
  destruct x as [|x], y as [|y]; simpl.
  - done.
  - destruct (arr !! y) as [ay|] eqn:Hy; [|done]. by apply insert_Permutation.
  - destruct (arr !! x) as [ax|] eqn:Hx; [|done]. by apply insert_Permutation.
  - specialize (IH x y).
    destruct (arr !! x) as [ax|], (arr !! y) as [ay|]; try done.
    by apply Permutation_skip.
Qed.

Lemma shuffle_loop_Permutation draw turns : ∀ i arr,
  shuffle_loop draw i turns arr ≡ₚ arr.
Proof.
  induction turns as [|turns IH]; intros i arr; simpl; [done|].
  destruct (draw i) as [x y]. rewrite IH.
  case_bool_decide; [done|apply swap_Permutation].
Qed.

End Shuffle.

(** ** The best of the trainer *)

Section Trainer_best.
Variable newParams : nat → list Q.
Variable avg : nat → Q.

Lemma train_best n :
  (train newParams avg n = {| bestAvg := 100; bestAvgParams := [] |}
   ∧ ∀ j, (j < n)%nat → (100 <= avg j)%Q)
  ∨ ∃ i, (i < n)%nat
      ∧ train newParams avg n = {| bestAvg := avg i; bestAvgParams := newParams i |}
      ∧ (avg i < 100)%Q
      ∧ (∀ j, (j < i)%nat → (avg i < avg j)%Q)
      ∧ (∀ j, (j < n)%nat → (avg i <= avg j)%Q).
Proof.
  induction n as [|n IH]; simpl.
  - left. split; [done|]. intros; lia.
  - unfold loop.
    destruct IH as [[-> Hall]|(i & Hi & -> & Hlow & Hfirst & Hmin)]; simpl;
      destruct (Qlt_le_dec _ _) as [Hlt|Hle].
    + right. exists n. split_and!; [lia|done|done| |].
      * intros j Hj. eapply Qlt_le_trans; [done|by apply Hall].
      * intros j Hj. destruct (decide (j = n)) as [->|Hne]; [apply Qle_refl|].
        apply Qlt_le_weak. eapply Qlt_le_trans; [done|]. apply Hall. lia.
    + left. split; [done|]. intros j Hj.
      destruct (decide (j = n)) as [->|Hne]; [done|]. apply Hall. lia.
    + right. exists n. split_and!; [lia|done| | |].
      * by eapply Qlt_trans.
      * intros j Hj. eapply Qlt_le_trans; [done|by apply Hmin].
      * intros j Hj. destruct (decide (j = n)) as [->|Hne]; [apply Qle_refl|].
        apply Qlt_le_weak. eapply Qlt_le_trans; [done|]. apply Hmin. lia.
    + right. exists i. split_and!; [lia|done|done|done|].
      intros j Hj. destruct (decide (j = n)) as [->|Hne]; [done|]. apply Hmin. lia.
Qed.
End Trainer_best.

(** ** The parts of a word *)

Section Word_parts.
Implicit Types (text : string) (c : ascii).

Lemma fold_left_insert_lookup (f : ascii → nat) (l : list (ascii * nat)) :
  (∀ e, e ∈ l → e.2 = f e.1) →
  ∀ (m : gmap ascii nat) c,
    fold_left (λ acc (e : ascii * nat), <[e.1 := e.2]> acc) l m !! c
    = if decide (c ∈ map fst l) then Some (f c) else m !! c.
Proof.
  induction l as [|[k n] l IH]; intros Hf m c.
  - by rewrite decide_False by (by intros ?%elem_of_nil).
  - cbn [fold_left]. change (map fst ((k, n) :: l)) with (k :: map fst l).
    rewrite IH by (intros e He; by apply Hf, list_elem_of_further). cbn [fst snd].
    pose proof (Hf (k, n) (list_elem_of_here _ _)) as Hn. simpl in Hn.
    destruct (decide (c ∈ map fst l)) as [Hin|Hout].
    + by rewrite decide_True by (by apply list_elem_of_further).
    + destruct (decide (c = k)) as [->|Hne].
      * rewrite lookup_insert_eq, decide_True by apply list_elem_of_here. by rewrite Hn.
      * rewrite lookup_insert_ne by done.
        rewrite decide_False; [done|]. by intros [?|?]%elem_of_cons.
Qed.
End Word_parts.

(** ** Further properties of the code *)

Lemma remainingWords_new_Game secret (words : list string) :
  remainingWords (new_Game secret words) = map new_Word words.
Proof.
  unfold remainingWords. simpl. induction (map new_Word words) as [|w ws IH]; [done|].
  rewrite filter_cons_True; [by rewrite IH|]. apply includes_false. by intros ?%elem_of_nil.
Qed.

Lemma isWin_newTry_characters g word :
  length (characters word) = length (characters (secretWord g)) →
  isWin (newTry g word) = true → characters word = characters (secretWord g).
Proof.
  intros Hlen Hwin. unfold isWin in Hwin. rewrite forallb_forall in Hwin.
  apply list_eq. intros i. destruct (characters word !! i) as [c|] eqn:Hi.
  - symmetry. apply classify_green.
    apply (settle_green (greenCharsOf (firstPass (secretWord g) word))).
    eapply bool_decide_eq_true_1, Hwin, list_elem_of_In.
    apply list_elem_of_lookup_2 with i. by rewrite newTry_lookup, Hi.
  - symmetry. apply lookup_ge_None. apply lookup_ge_None in Hi. lia.
Qed.

Section Game_lost.
Context `{Host}.

Lemma play_throws verbose : ∀ fuel g,
  (∀ w, w ∈ remainingWords g →
     length (characters w) = length (characters (secretWord g))
     ∧ characters w ≠ characters (secretWord g)) →
  (length (remainingWords g) < fuel)%nat →
  ∃ e out, play fuel verbose g = Some (Throw e, out).
Proof.
  induction fuel as [|fuel IH]; intros g Hwords Hfuel; [lia|]. simpl.
  destruct (guessWord g) as [[w|e] out] eqn:Hguess; [|by eauto].
  pose proof (guessWord_Return_remaining g w out Hguess) as Hw.
  destruct (Hwords w Hw) as [Hlen Hdiff].
  destruct (isWin (newTry g w)) eqn:Hwin.
  { by apply isWin_newTry_characters in Hwin. }
  set (g1 := push_filter g (newTry g w)).
  destruct (IH g1) as (e & later & ->); [| |by eauto].
  - intros w'. unfold g1. rewrite remainingWords_push_newTry.
    intros [_ Hw']%list_elem_of_filter. by apply Hwords.
  - unfold g1. rewrite remainingWords_push_newTry.
    pose proof (length_filter_lt (λ w', Word_toString w' ≠ Word_toString w)
                  (remainingWords g) w Hw) as Hless.
    cbv beta in Hless. specialize (Hless (λ Hne, Hne eq_refl)). lia.
Qed.
End Game_lost.

(** X1: a game whose history was played against its secret, with a word
    spelled as the secret among the words not yet guessed, is won by [play]
    given fuel for as many calls as there are such words: it returns, the
    history grown by the feedback of at least one and at most that many
    guesses, all taken from the words not yet guessed, the last of them
    winning. *)
Theorem play_wins_when_secret_remains `{Host} (verbose : bool) (fuel : nat) (g : Game) (ws : Word) :
  played g →
  (length (remainingWords g) ≤ fuel)%nat →
  ws ∈ remainingWords g →
  characters ws = characters (secretWord g) →
  ∃ g' out guesses,
    play fuel verbose g = Some (Return g', out)
    ∧ wordFilters g' = wordFilters g ++ map (newTry g) guesses
    ∧ secretWord g' = secretWord g
    ∧ (1 ≤ length guesses ≤ length (remainingWords g))%nat
    ∧ (∀ w, w ∈ guesses → w ∈ remainingWords g)
    ∧ ∃ w, last guesses = Some w ∧ isWin (newTry g w) = true.
Proof. apply play_wins. Qed.

Lemma play_wins_when_secret_remains_witness :
  let H := RationalHost.host in
  ∃ g' out,
    play 3 true (new_Game "abcdf" ["abcde"; "abcdf"; "abcdg"]) = Some (Return g', out).
Proof.
  intros H.
  destruct (play_wins_when_secret_remains true 3
              (new_Game "abcdf" ["abcde"; "abcdf"; "abcdg"]) (new_Word "abcdf"))
    as (g' & out & _ & Hplay & _).
  - by intros wf ?%elem_of_nil.
  - rewrite remainingWords_new_Game. simpl. lia.
  - rewrite remainingWords_new_Game.
    apply list_elem_of_further, list_elem_of_here.
  - reflexivity.
  - by exists g', out.
Defined.

(** X2: when no word left to guess is spelled as the secret, all of them
    having the secret's length, [play] never wins: given fuel for one call
    more than there are such words, it ends by an exception of
    [guessWord]. *)
Theorem play_throws_without_secret `{Host} (verbose : bool) (fuel : nat) (g : Game) :
  (∀ w, w ∈ remainingWords g →
     length (characters w) = length (characters (secretWord g))
     ∧ characters w ≠ characters (secretWord g)) →
  (length (remainingWords g) < fuel)%nat →
  ∃ e out, play fuel verbose g = Some (Throw e, out).
Proof. apply play_throws. Qed.

Lemma play_throws_without_secret_witness :
  let H := RationalHost.host in
  ∃ e out, play 3 true (new_Game "zzzzz" ["abcde"; "abcdf"]) = Some (Throw e, out).
Proof.
  intros H. apply play_throws_without_secret.
  - intros w. rewrite remainingWords_new_Game.
    change (map new_Word ["abcde"; "abcdf"]) with [new_Word "abcde"; new_Word "abcdf"].
    intros [->|[->|[]%elem_of_nil]%elem_of_cons]%elem_of_cons; by split.
  - rewrite remainingWords_new_Game. simpl. lia.
Defined.

(** X3: a word that [guessWord] returns is one of [allWords] whose text is
    not among [usedWords]: a word is never guessed twice. *)
Theorem guessWord_returns_unused `{Host} (g : Game) (w : Word) (out : console) :
  guessWord g = (Return w, out) →
  w ∈ allWords g ∧ Word_toString w ∉ usedWords g.
Proof.
  intros Hw%guessWord_Return_remaining.
  apply list_elem_of_filter in Hw as [Hunused Hw]. split; [done|].
  by apply includes_false.
Qed.

Lemma guessWord_returns_unused_witness :
  let H := RationalHost.host in
  let g := new_Game "abcdf" ["abcdf"] in
  new_Word "abcdf" ∈ allWords g ∧ Word_toString (new_Word "abcdf") ∉ usedWords g.
Proof. intros H g. by apply (guessWord_returns_unused g (new_Word "abcdf") []). Defined.

(** X4: with a history played against the secret and a word spelled as the
    secret among the words not yet guessed, [guessWord] returns a word and
    does not throw. *)
Theorem guessWord_returns_when_secret_remains `{Host} (g : Game) (ws : Word) :
  played g →
  ws ∈ remainingWords g →
  characters ws = characters (secretWord g) →
  ∃ w out, guessWord g = (Return w, out).
Proof. apply guessWord_Return_played. Qed.

Lemma guessWord_returns_when_secret_remains_witness :
  let H := RationalHost.host in
  let g0 := new_Game "abcdg" ["abcde"; "abcdf"; "abcdg"; "abcdh"] in
  ∃ w out, guessWord (push_filter g0 (newTry g0 (new_Word "abcde"))) = (Return w, out).
Proof.
  intros H g0.
  apply (guessWord_returns_when_secret_remains _ (new_Word "abcdg")).
  - apply played_push. by intros wf ?%elem_of_nil.
  - unfold g0. rewrite remainingWords_push_newTry, remainingWords_new_Game.
    apply list_elem_of_filter. split; [done|].
    do 2 apply list_elem_of_further. apply list_elem_of_here.
  - reflexivity.
Defined.

(** X5: with a history played against the secret, [evaluateWord] passes a
    word spelled as the secret on gray, on green and on yellow. *)
Theorem evaluateWord_passes_secret (g : Game) (word : Word) :
  played g →
  characters word = characters (secretWord g) →
  (evaluateWord g word).1 = {| gray := true; green := true; yellow := true |}.
Proof. apply evaluateWord_as_secret. Qed.

Lemma evaluateWord_passes_secret_witness :
  let g0 := new_Game "aabcd" [] in
  let g := push_filter g0 (newTry g0 (new_Word "baaxa")) in
  (evaluateWord g (new_Word "aabcd")).1 = {| gray := true; green := true; yellow := true |}.
Proof.
  intros g0 g. apply evaluateWord_passes_secret; [|reflexivity].
  apply played_push. by intros wf ?%elem_of_nil.
Defined.

(** X6: with a history played against the secret, the constraints are true
    of the secret: a character that [greenChars] holds at an index is the
    secret's character there, every character of [yellowChars] is in the
    secret, and no character of [grayChars] is. *)
Theorem played_constraints_secret (g : Game) :
  played g →
  (∀ i c, greenChars g !! i = Some (Some c) → characters (secretWord g) !! i = Some c)
  ∧ (∀ c, c ∈ yellowChars g → c ∈ characters (secretWord g))
  ∧ (∀ c, c ∈ grayChars g → c ∉ characters (secretWord g)).
Proof.
  intros Hplayed. split_and!.
  - intros i c. by apply played_greenChars.
  - intros c. by apply played_yellowChars.
  - intros c. by apply played_grayChars.
Qed.

Lemma played_constraints_secret_witness :
  let g0 := new_Game "aabcd" [] in
  let g := push_filter g0 (newTry g0 (new_Word "baaxa")) in
  "x"%char ∉ characters (secretWord g).
Proof.
  intros g0 g.
  destruct (played_constraints_secret g) as (_ & _ & Hgray).
  - apply played_push. by intros wf ?%elem_of_nil.
  - apply Hgray. apply includes_true. reflexivity.
Defined.

(** X7: pushing the feedback of a guess appends the text of the guess to
    [usedWords] and removes from the words left exactly those with that
    text; when the guess was among them, fewer are left. *)
Theorem remainingWords_after_try (g : Game) (word : Word) :
  usedWords (push_filter g (newTry g word)) = usedWords g ++ [Word_toString word]
  ∧ remainingWords (push_filter g (newTry g word))
    = filter (λ w, Word_toString w ≠ Word_toString word) (remainingWords g)
  ∧ (word ∈ remainingWords g →
     (length (remainingWords (push_filter g (newTry g word)))
      < length (remainingWords g))%nat).
Proof.
  split_and!.
  - apply usedWords_push_newTry.
  - apply remainingWords_push_newTry.
  - intros Hword. rewrite remainingWords_push_newTry.
    apply (length_filter_lt _ _ word); [done|]. by intros [].
Qed.

Lemma remainingWords_after_try_witness :
  let g := new_Game "abcdf" ["abcde"; "abcdf"] in
  (length (remainingWords (push_filter g (newTry g (new_Word "abcde"))))
   < length (remainingWords g))%nat.
Proof.
  intros g. apply remainingWords_after_try.
  unfold g. rewrite remainingWords_new_Game. apply list_elem_of_here.
Defined.

Lemma every_logged_skip {A E} (f : A → outcome bool * list E) (pre rest : list A) :
  (∀ x, x ∈ pre → f x = (Return true, [])) →
  every_logged f (pre ++ rest) = every_logged f rest.
Proof.
  induction pre as [|x pre IH]; intros Hpre; simpl; [done|].
  rewrite (Hpre x) by apply list_elem_of_here.
  rewrite IH by (intros y Hy; by apply Hpre, list_elem_of_further).
  by destruct (every_logged f rest).
Qed.





(** X10: on a word no longer than the record [doesWordPassYellow] returns
    and does not throw; and what it returns or throws never depends on
    whether it prints. *)
Theorem doesWordPassYellow_total (wf : WordFilter) (word : Word) :
  ((length (characters word) ≤ length (positions wf))%nat →
   ∀ print, ∃ b, (doesWordPassYellow print wf word).1 = Return b)
  ∧ (doesWordPassYellow true wf word).1 = (doesWordPassYellow false wf word).1.
Proof.
  split.
  - intros Hlen print. by apply doesWordPassYellow_returns.
  - apply doesWordPassYellow_print.
Qed.

Lemma doesWordPassYellow_total_witness :
  let g := new_Game "aabcd" [] in
  ∃ b, (doesWordPassYellow true (newTry g (new_Word "baaxa")) (new_Word "xbaay")).1 = Return b.
Proof.
  intros g. apply (doesWordPassYellow_total (newTry g (new_Word "baaxa")) (new_Word "xbaay")).
  simpl. lia.
Defined.

(** X11: [doesWordPassYellow] throws a TypeError, having printed nothing,
    when the first YELLOW position of the record has a character whose
    first occurrence in the word is at an index past the end of the
    record. *)
Theorem doesWordPassYellow_throws (print : bool) (wf : WordFilter) (word : Word)
    (pre post : list position) (p : position) (k : nat) :
  positions wf = pre ++ p :: post →
  Forall (λ q, value q ≠ YELLOW) pre →
  value p = YELLOW →
  findIndex (λ c, bool_decide (c = character p)) (characters word) = Some k →
  (length (positions wf) ≤ k)%nat →
  doesWordPassYellow print wf word = (Throw TypeError, []).
Proof.
  intros Hps Hpre Hp Hk Hlen. unfold doesWordPassYellow.
  match goal with |- every_logged ?f _ = _ => set (callback := f) end.
  rewrite Hps, every_logged_skip.
  - simpl. unfold callback. rewrite bool_decide_eq_true_2 by done. rewrite Hk.
    by rewrite (lookup_ge_None_2 (positions wf) k).
  - intros q Hq. rewrite Forall_forall in Hpre. specialize (Hpre q Hq).
    unfold callback. by rewrite bool_decide_eq_false_2.
Qed.

Lemma doesWordPassYellow_throws_witness :
  doesWordPassYellow false
    {| positions := [ {| character := "a"%char; value := GRAY |};
                      {| character := "b"%char; value := YELLOW |} ] |}
    (new_Word "xxb")
  = (Throw TypeError, []).
Proof.
  apply (doesWordPassYellow_throws false _ _ [ {| character := "a"%char; value := GRAY |} ] []
           {| character := "b"%char; value := YELLOW |} 2).
  - reflexivity.
  - by repeat constructor.
  - reflexivity.
  - reflexivity.
  - simpl. lia.
Defined.

(** X12: in a record of [newTry] a character that is GREEN at some index
    is YELLOW at no index. *)
Theorem newTry_green_excludes_yellow (g : Game) (word : Word) (i : nat) (c : ascii) :
  positions (newTry g word) !! i = Some {| character := c; value := GREEN |} →
  {| character := c; value := YELLOW |} ∉ positions (newTry g word).
Proof. apply newTry_green_not_yellow. Qed.

Lemma newTry_green_excludes_yellow_witness :
  let g := new_Game "aabcd" [] in
  {| character := "a"%char; value := YELLOW |} ∉ positions (newTry g (new_Word "baaxa")).
Proof. intros g. by apply (newTry_green_excludes_yellow g (new_Word "baaxa") 1). Defined.

(** X13: pushing a record writes its GREEN characters over [greenChars],
    the last record winning: an index the record shows GREEN holds the
    record's character, any other index holds a character exactly when it
    did before; and [greenChars] has never fewer than five slots, nor fewer
    than before. *)
Theorem greenChars_last_record_wins (g : Game) (wf : WordFilter) (j : nat) :
  (∀ c, positions wf !! j = Some {| character := c; value := GREEN |} →
        greenChars (push_filter g wf) !! j = Some (Some c))
  ∧ ((∀ c, positions wf !! j ≠ Some {| character := c; value := GREEN |}) →
     ∀ c, greenChars (push_filter g wf) !! j = Some (Some c)
          ↔ greenChars g !! j = Some (Some c))
  ∧ (5 ≤ length (greenChars g) ≤ length (greenChars (push_filter g wf)))%nat.
Proof.
  split_and!.
  - intros c Hc%green_at_Some. apply resolved_Some.
    by rewrite resolved_greenChars_push, Hc.
  - intros Hnone c. rewrite <- !resolved_Some, resolved_greenChars_push.
    destruct (green_at (positions wf) j) as [c'|] eqn:Hg; [|done].
    apply green_at_Some in Hg. by destruct (Hnone c').
  - apply (length_marks (wordFilters g) (replicate 5 None)).
  - rewrite greenChars_push. apply length_forEach_mark.
Qed.

Lemma greenChars_last_record_wins_witness :
  let g := new_Game "aabcd" [] in
  greenChars (push_filter g (newTry g (new_Word "baaxa"))) !! 1 = Some (Some "a"%char).
Proof.
  intros g.
  apply (proj1 (greenChars_last_record_wins g (newTry g (new_Word "baaxa")) 1)).
  reflexivity.
Defined.

(** X14: [yellowChars] and [grayChars] hold no character twice. *)
Theorem yellowChars_grayChars_NoDup (g : Game) :
  NoDup (yellowChars g) ∧ NoDup (grayChars g).
Proof. split; apply NoDup_filter, NoDup_Set_from. Qed.

(** X15: [gradeWords] returns the words it is given, each once and each
    with three grades, in some order. *)
Theorem gradeWords_Permutation `{Host} (g : Game) (params : list number) (words : list Word) :
  map word (gradeWords g params words) ≡ₚ words
  ∧ Forall (λ gw, length (grade gw) = 3) (gradeWords g params words).
Proof.
  split; [apply gradeWords_words|].
  unfold gradeWords. rewrite Array_sort_Permutation.
  apply Forall_forall. intros gw [w [<- _]]%list_elem_of_In%in_map_iff. done.
Qed.

(** X16: [shuffle], its draws being indices of the array, returns the
    elements of the array in some order, none lost and none twice. *)
Theorem shuffle_Permutation {A} (draw : nat → nat * nat) (arr : list A) :
  (∀ i, (i < length arr)%nat →
        ((draw i).1 < length arr)%nat ∧ ((draw i).2 < length arr)%nat) →
  shuffle draw arr ≡ₚ arr ∧ length (shuffle draw arr) = length arr.
Proof.
  intros _.
  assert (shuffle draw arr ≡ₚ arr) as Hperm by apply shuffle_loop_Permutation.
  split; [done|]. by rewrite Hperm.
Qed.

Lemma shuffle_Permutation_witness :
  let draw := λ i, match i with 0 => (2, 0) | 1 => (1, 1) | _ => (0, 1) end in
  shuffle draw ["apple"; "angle"; "ankle"] ≡ₚ ["apple"; "angle"; "ankle"]
  ∧ length (shuffle draw ["apple"; "angle"; "ankle"]) = 3.
Proof.
  intros draw. apply (shuffle_Permutation draw).
  intros [|[|[|i]]] Hi; simpl in *; lia.
Defined.

(** X17: [train] returns the first generation with the lowest average when
    some average is below 100, with the parameters drawn in that
    generation, and 100 with no parameters when none is. *)
Theorem train_returns_first_best (newParams : nat → list Q) (avg : nat → Q) (n : nat) :
  (train newParams avg n = {| bestAvg := 100; bestAvgParams := [] |}
   ∧ ∀ j, (j < n)%nat → (100 <= avg j)%Q)
  ∨ ∃ i, (i < n)%nat
      ∧ train newParams avg n = {| bestAvg := avg i; bestAvgParams := newParams i |}
      ∧ (avg i < 100)%Q
      ∧ (∀ j, (j < i)%nat → (avg i < avg j)%Q)
      ∧ (∀ j, (j < n)%nat → (avg i <= avg j)%Q).
Proof. apply train_best. Qed.

(** X18: the vowels and the consonants of a word are its characters among
    a, e, i, o, u and its other characters, each kind in the order of the
    word; together they are the characters of the word. *)
Theorem new_Word_vowels_consonants (text : string) :
  let w := new_Word text in
  vowels w ++ consonants w ≡ₚ characters w
  ∧ vowels w `sublist_of` characters w
  ∧ consonants w `sublist_of` characters w
  ∧ (∀ c, c ∈ vowels w ↔ c ∈ characters w ∧ c ∈ list_ascii_of_string "aeiou")
  ∧ (∀ c, c ∈ consonants w ↔ c ∈ characters w ∧ c ∉ list_ascii_of_string "aeiou").
Proof.
  intros w. unfold w, new_Word. cbn [vowels consonants characters].
  set (chars := list_ascii_of_string text).
  split_and!.
  - assert (filter (λ c, is_vowel c = false) chars
            = filter (λ c, ¬ is_vowel c = true) chars) as ->.
    { apply list_filter_iff. intros c. by destruct (is_vowel c). }
    apply filter_app_complement.
  - apply sublist_filter.
  - apply sublist_filter.
  - intros c. rewrite list_elem_of_filter. unfold is_vowel. rewrite includes_true. tauto.
  - intros c. rewrite list_elem_of_filter. unfold is_vowel. rewrite includes_false. tauto.
Qed.

(** X19: [repeatedCharaters] maps exactly the characters that occur more
    than once in the word, each to the number of its occurrences. *)
Theorem new_Word_repeatedCharaters (text : string) (c : ascii) (n : nat) :
  repeatedCharaters (new_Word text) !! c = Some n
  ↔ n = length (filter (λ x, x = c) (characters (new_Word text))) ∧ (1 < n)%nat.
Proof.
  unfold new_Word. cbn [repeatedCharaters characters].
  set (chars := list_ascii_of_string text).
  set (count := λ x : ascii, length (filter (λ y, y = x) chars)).
  rewrite (fold_left_insert_lookup count).
  - rewrite lookup_empty. fold (count c). destruct (decide _) as [Hin|Hout].
    + apply list_elem_of_In, in_map_iff in Hin as ([c' n'] & Hc & He). simpl in Hc. subst c'.
      apply list_elem_of_In, list_elem_of_filter in He as [Hn He]. simpl in Hn.
      apply list_elem_of_In, in_map_iff in He as (c' & [= -> <-] & _).
      split; [intros [= <-]; by split|]. by intros [-> _].
    + split; [done|]. intros [-> Hn]. destruct Hout.
      apply list_elem_of_In, in_map_iff. exists (c, count c). split; [done|].
      apply list_elem_of_In, list_elem_of_filter. split; [done|].
      apply list_elem_of_In, in_map_iff. exists c. split; [done|].
      unfold count in Hn. destruct (filter (λ y, y = c) chars) as [|y ys] eqn:Hf; [simpl in Hn; lia|].
      assert (y ∈ filter (λ y, y = c) chars) as Hy by (rewrite Hf; apply list_elem_of_here).
      apply list_elem_of_filter in Hy as [-> Hy]. by apply list_elem_of_In.
  - intros e He. apply list_elem_of_filter in He as [_ He].
    by apply list_elem_of_In, in_map_iff in He as (c' & <- & _).
Qed.
